(** * Cache.cpp: the translator's cache of interned [TType] descriptors

    A shallow embedding of [src/compiler/translator/Cache.cpp]:
    the [TypeKey] encoder, the scoped redirect of the global pool
    allocator, the [TCache] singleton with [initialize], [destroy] and
    [getType], and the threads that call [getType] under [sCacheMutex]. *)

From Stdlib Require Import ZArith Lia.
From stdpp Require Import gmap list.

Local Open Scope Z_scope.

(** ** Data *)

(** [TBasicType], [TPrecision] and [TQualifier] are enumerations declared
    outside this file; an enumerator is represented by its integral
    value.  [unsigned char] is an integer in [0, 256). *)
Record TypeAttrs := mkAttrs {
  basicType : Z;
  precision : Z;
  qualifier : Z;
  primarySize : Z;
  secondarySize : Z
}.

Global Instance TypeAttrs_eq_dec : EqDecision TypeAttrs.
Proof. solve_decision. Defined.

(** Every field is representable in one byte. *)
Definition uchar (z : Z) : Prop := 0 <= z < 256.

Definition attrs_in_domain (T : TypeAttrs) : Prop :=
  uchar (basicType T) /\ uchar (precision T) /\ uchar (qualifier T) /\
  uchar (primarySize T) /\ uchar (secondarySize T).

(** Modelled from the spec: [TypeKey::EnumComponentType], declared in
    Cache.h, is the one-byte unsigned type the enumerated fields are
    narrowed to. *)
Definition EnumComponentType_max : Z := 255.

(** [static_cast<EnumComponentType>(e)]: conversion to an unsigned
    8-bit integer keeps the value modulo 2^8. *)
Definition static_cast_EnumComponentType (e : Z) : Z := e mod 256.

(** Little-endian reading and writing of an unsigned integer over a
    run of bytes. *)
Fixpoint le_decode (bs : list Z) : Z :=
  match bs with
  | [] => 0
  | b :: rest => b + 256 * le_decode rest
  end.

Fixpoint le_encode (n : nat) (v : Z) : list Z :=
  match n with
  | O => []
  | S n' => v mod 256 :: le_encode n' (v / 256)
  end.

(** ** Objects and the program state *)

(** Modelled from the spec: [TType], the type descriptor, is declared
    outside this file; it is constructed with the five attributes and
    then finalized by [realize()]. *)
Record TType := mkTType {
  type_attrs : TypeAttrs;
  realized : bool
}.

(** A [const TType *]: null, or the [slot]-th allocation made from the
    pool allocator [pool]. Pools are named by the identity of the
    object that embeds them; identities are never reused. *)
Inductive TTypePtr :=
| nullptr
| in_pool (pool : nat) (slot : nat).

Global Instance TTypePtr_eq_dec : EqDecision TTypePtr.
Proof. solve_decision. Defined.

(** A [TCache] instance. Modelled from the spec: Cache.h declares the
    members; [mTypes] is a map from [TypeKey] whose ordering compares
    the member [value] of the keys, so it is a map from that integer;
    [mAllocator] is the pool the instance embeds, named by the identity
    of the instance. *)
Record TCache := mkTCache {
  mTypes : gmap Z TTypePtr;
  mAllocator : nat
}.

Record State := mkState {
  sCache : option nat;                (* TCache::sCache, None is nullptr *)
  caches : gmap nat TCache;           (* the live TCache objects *)
  pools : gmap nat (list TType);      (* the live pool allocators *)
  globalPoolAllocator : option nat;   (* the ambient allocation target *)
  sCacheMutex : bool;                 (* true while the mutex is held *)
  fresh : nat                         (* the next unused identity *)
}.

Definition set_sCache (p : option nat) (s : State) : State :=
  mkState p (caches s) (pools s) (globalPoolAllocator s) (sCacheMutex s) (fresh s).

Definition set_caches (m : gmap nat TCache) (s : State) : State :=
  mkState (sCache s) m (pools s) (globalPoolAllocator s) (sCacheMutex s) (fresh s).

Definition set_pools (m : gmap nat (list TType)) (s : State) : State :=
  mkState (sCache s) (caches s) m (globalPoolAllocator s) (sCacheMutex s) (fresh s).

Definition set_mutex (b : bool) (s : State) : State :=
  mkState (sCache s) (caches s) (pools s) (globalPoolAllocator s) b (fresh s).

(** Modelled from the spec: [GetGlobalPoolAllocator] and
    [SetGlobalPoolAllocator], declared with the pool allocator, read and
    write the process-wide ambient allocation target. *)
Definition GetGlobalPoolAllocator (s : State) : option nat :=
  globalPoolAllocator s.

Definition SetGlobalPoolAllocator (a : option nat) (s : State) : State :=
  mkState (sCache s) (caches s) (pools s) a (sCacheMutex s) (fresh s).

(** How a call ends: it returns, it leaves by an exception, it has
    undefined behaviour, or it waits for the mutex forever. *)
Inductive Result (A : Type) :=
| Returns (a : A) (s : State)
| Throws (s : State)
| Undefined
| Blocks.

Arguments Returns {A} a s.
Arguments Throws {A} s.
Arguments Undefined {A}.
Arguments Blocks {A}.

Definition bind {A B} (r : Result A) (k : A -> State -> Result B) : Result B :=
  match r with
  | Returns a s => k a s
  | Throws s => Throws s
  | Undefined => Undefined
  | Blocks => Blocks
  end.

(** The destructor of a local object runs on every way out of its
    scope, by return or by exception. *)
Definition at_scope_exit {A} (dtor : State -> State) (r : Result A) : Result A :=
  match r with
  | Returns a s => Returns a (dtor s)
  | Throws s => Throws (dtor s)
  | Undefined => Undefined
  | Blocks => Blocks
  end.

(** ** Example inputs *)

(** A process before [main], with no pool of its own. *)
Definition example_start : State := mkState None ∅ ∅ None false 0.

(** The same process after [initialize]. *)
Definition example_initialized : State :=
  mkState (Some 0%nat) {[0%nat := mkTCache ∅ 0]} {[0%nat := []]}
          None false 1.

(** Two tuples that differ in [basicType] only; the numbers stand for
    enumerators. *)
Definition example_Float : TypeAttrs := mkAttrs 1 3 11 1 1.
Definition example_Int : TypeAttrs := mkAttrs 2 3 11 1 1.

(** [example_Float] with a [basicType] beyond one byte, 256 higher. *)
Definition example_Float_wrapped : TypeAttrs := mkAttrs 257 3 11 1 1.

(** The process after [initialize] and [getType] for [example_Float],
    on a little-endian target with an 8-byte key. *)
Definition example_Float_cached : State :=
  mkState (Some 0%nat)
          {[0%nat := mkTCache {[4312466177 := in_pool 0 0]} 0]}
          {[0%nat := [mkTType example_Float true]]}
          None false 1.

(** Bytes left on the stack where a key is about to be constructed. *)
Definition example_garbage : list Z := [171; 205; 239; 18; 52; 86; 120; 154].

(** A [TType] whose [realize] always throws. *)
Definition always_realize : TTypePtr -> State -> bool := fun _ _ => true.

(** A [TType] whose construction never throws. *)
Definition never_new : TypeAttrs -> State -> bool := fun _ _ => false.
Definition never_realize : TTypePtr -> State -> bool := fun _ _ => false.

Section Cache.

(** What Cache.h fixes and this file only uses: [sizeof(value)] in
    bytes, and the byte order of the target. *)
Variable value_size : nat.
Variable big_endian : bool.

(** The five one-byte members of [components] lie at offsets 0 to 4. *)
Definition sizeof_components : nat := 5.

(** The union is as large as its largest member, which is [value] when
    the static assertion of the constructor holds. *)
Definition sizeof_TypeKey : nat := Nat.max sizeof_components value_size.

(** [static_assert(sizeof(components) <= sizeof(value))]. *)
Definition TypeKey_static_assert : Prop :=
  (sizeof_components <= value_size)%nat.

Definition value_bytes (v : Z) : list Z :=
  if big_endian then reverse (le_encode value_size v)
  else le_encode value_size v.

(** [value = v]: writes the [value_size] bytes of the member [value],
    which starts at offset 0 of the union. *)
Definition store_value (v : Z) (this : list Z) : list Z :=
  value_bytes v ++ drop value_size this.

(** Reading the member [value] back. *)
Definition load_value (this : list Z) : Z :=
  let bs := take value_size this in
  le_decode (if big_endian then reverse bs else bs).

(** [TCache::TypeKey::TypeKey]; [this] is the storage of the object
    under construction, whose bytes are indeterminate on entry. The
    [ASSERT] before the assignments does not depend on the arguments;
    its condition is [TypeKey_ASSERT] below. *)
Definition TypeKey_ctor (this : list Z) (T : TypeAttrs) : list Z :=
  let this := store_value 0 this in
  let this := <[0%nat := static_cast_EnumComponentType (basicType T)]> this in
  let this := <[1%nat := static_cast_EnumComponentType (precision T)]> this in
  let this := <[2%nat := static_cast_EnumComponentType (qualifier T)]> this in
  let this := <[3%nat := primarySize T]> this in
  let this := <[4%nat := secondarySize T]> this in
  this.

(** The condition of the [ASSERT] at the head of the constructor, for
    given last enumerators. The string literal in the conjunction is a
    non-null pointer, hence true. *)
Definition TypeKey_ASSERT (EbtLast EbpLast EvqLast : Z) : bool :=
  let MaxEnumValue := EnumComponentType_max in
  (EbtLast <=? MaxEnumValue) && (EbpLast <=? MaxEnumValue) &&
  (EvqLast <=? MaxEnumValue) && true.

(** ** The translator's operations *)

(** [TScopedAllocator]: its constructor saves the ambient allocator and
    installs [allocator]; its destructor puts the saved one back. *)
Record TScopedAllocator := mkTScopedAllocator {
  mPreviousAllocator : option nat
}.

Definition TScopedAllocator_ctor (allocator : option nat) (s : State)
  : TScopedAllocator * State :=
  (mkTScopedAllocator (GetGlobalPoolAllocator s),
   SetGlobalPoolAllocator allocator s).

Definition TScopedAllocator_dtor (this : TScopedAllocator) (s : State) : State :=
  SetGlobalPoolAllocator (mPreviousAllocator this) s.

(** [CacheMutex]: [Lock] waits while the mutex is held. *)
Definition CacheMutex_Lock (s : State) : Result unit :=
  if sCacheMutex s then Blocks else Returns tt (set_mutex true s).

Definition CacheMutex_Unlock (s : State) : State := set_mutex false s.

(** [AutoEnterCacheMutex lock;] at the head of a function body: the
    mutex is taken, the rest of the body runs, and the destructor of
    [lock] releases the mutex on the way out. *)
Definition AutoEnterCacheMutex {A} (body : State -> Result A) (s : State)
  : Result A :=
  bind (CacheMutex_Lock s) (fun _ s => at_scope_exit CacheMutex_Unlock (body s)).

(** [new TCache()]: a fresh instance with an empty map and a pool of
    its own, in which nothing is allocated yet. *)
Definition new_TCache (s : State) : nat * State :=
  let a := fresh s in
  (a, mkState (sCache s)
              (<[a := mkTCache ∅ a]> (caches s))
              (<[a := []]> (pools s))
              (globalPoolAllocator s) (sCacheMutex s) (S a)).

(** [delete p] for a [TCache *]: nothing for a null pointer; else the
    instance goes away, and with it its map and its pool. *)
Definition delete_TCache (p : option nat) (s : State) : Result unit :=
  match p with
  | None => Returns tt s
  | Some a =>
    match caches s !! a with
    | None => Undefined
    | Some c =>
      Returns tt (set_pools (delete (mAllocator c) (pools s))
                            (set_caches (delete a (caches s)) s))
    end
  end.

(** Modelled from the spec: [SafeDelete], a helper of
    common/angleutils.h, deletes the object its argument points to, if
    any, and leaves the pointer null. *)
Definition SafeDelete_sCache (s : State) : Result unit :=
  bind (delete_TCache (sCache s) s) (fun _ s => Returns tt (set_sCache None s)).

(** [sCache->...]: the instance [sCache] points to. *)
Definition deref_sCache (s : State) : option TCache :=
  match sCache s with
  | None => None
  | Some a => caches s !! a
  end.

(** The two steps of [TType] that [getType] calls are external. Whether
    one of them leaves by an exception is not decided in this file. *)
Variable new_TType_throws : TypeAttrs -> State -> bool.
Variable realize_throws : TTypePtr -> State -> bool.

(** Modelled from the spec: [new TType(...)] takes its storage from the
    ambient pool allocator and constructs the descriptor there. *)
Definition new_TType (T : TypeAttrs) (s : State) : Result TTypePtr :=
  match GetGlobalPoolAllocator s with
  | None => Undefined
  | Some a =>
    match pools s !! a with
    | None => Undefined
    | Some objs =>
      if new_TType_throws T s then Throws s
      else Returns (in_pool a (length objs))
                   (set_pools (<[a := objs ++ [mkTType T false]]> (pools s)) s)
    end
  end.

(** Modelled from the spec: [type->realize()] finalizes the descriptor
    [type] points to. *)
Definition TType_realize (type : TTypePtr) (s : State) : Result unit :=
  match type with
  | nullptr => Undefined
  | in_pool a i =>
    match pools s !! a with
    | None => Undefined
    | Some objs =>
      match objs !! i with
      | None => Undefined
      | Some t =>
        if realize_throws type s then Throws s
        else Returns tt
               (set_pools (<[a := <[i := mkTType (type_attrs t) true]> objs]> (pools s)) s)
      end
    end
  end.

(** [std::map::insert]: an entry with an equivalent key stays. *)
Definition map_insert (k : Z) (p : TTypePtr) (m : gmap Z TTypePtr)
  : gmap Z TTypePtr :=
  match m !! k with
  | Some _ => m
  | None => <[k := p]> m
  end.

(** [sCache->mTypes.insert(std::make_pair(key, type))]. *)
Definition mTypes_insert (key : list Z) (type : TTypePtr) (s : State)
  : Result unit :=
  match sCache s with
  | None => Undefined
  | Some a =>
    match caches s !! a with
    | None => Undefined
    | Some c =>
      Returns tt
        (set_caches
           (<[a := mkTCache (map_insert (load_value key) type (mTypes c))
                            (mAllocator c)]> (caches s)) s)
    end
  end.

(** [TCache::initialize]. *)
Definition initialize : State -> Result unit :=
  AutoEnterCacheMutex (fun s =>
    match sCache s with
    | None =>
      let '(a, s) := new_TCache s in
      Returns tt (set_sCache (Some a) s)
    | Some _ => Returns tt s
    end).

(** [TCache::destroy]. *)
Definition destroy : State -> Result unit :=
  AutoEnterCacheMutex SafeDelete_sCache.

(** [TCache::getType]; [key_storage] is what the bytes of the local
    [key] hold before its constructor runs. *)
Definition getType (key_storage : list Z) (T : TypeAttrs)
  : State -> Result TTypePtr :=
  AutoEnterCacheMutex (fun s =>
    let key := TypeKey_ctor key_storage T in
    match deref_sCache s with
    | None => Undefined
    | Some c =>
      match mTypes c !! load_value key with
      | Some p => Returns p s
      | None =>
        let '(scopedAllocator, s) :=
          TScopedAllocator_ctor (Some (mAllocator c)) s in
        at_scope_exit (TScopedAllocator_dtor scopedAllocator)
          (bind (new_TType T s) (fun type s =>
           bind (TType_realize type s) (fun _ s =>
           bind (mTypes_insert key type s) (fun _ s =>
           Returns type s))))
      end
    end).

(** ** Threads that call [getType] *)

(** How a call of a thread ended. *)
Inductive Outcome :=
| Returned (p : TTypePtr)
| Thrown
| Crashed.

(** Where a thread stands in [getType]: the statement it executes next,
    with the locals that are alive there. *)
Inductive PC :=
| at_Lock                 (* AutoEnterCacheMutex lock; *)
| at_find                 (* TypeKey key(...); sCache->mTypes.find(key) *)
| at_scopedAllocator      (* TScopedAllocator scopedAllocator(...); *)
| at_new (scopedAllocator : TScopedAllocator)
| at_realize (scopedAllocator : TScopedAllocator) (type : TTypePtr)
| at_insert (scopedAllocator : TScopedAllocator) (type : TTypePtr)
| at_restore (scopedAllocator : TScopedAllocator) (o : Outcome)
| at_Unlock (o : Outcome)
| finished (o : Outcome).

(** The next position after a statement: [next] when it returns,
    [unwind] when it throws. A thread that waits takes no step. *)
Definition continue {A} (r : Result A) (next : A -> PC) (unwind : PC)
    (s0 : State) : option (PC * State) :=
  match r with
  | Returns a s => Some (next a, s)
  | Throws s => Some (unwind, s)
  | Undefined => Some (finished Crashed, s0)
  | Blocks => None
  end.

(** One statement of [getType], executed atomically on the shared
    state. *)
Definition thread_step (ks : list Z) (T : TypeAttrs) (pc : PC) (s : State)
  : option (PC * State) :=
  match pc with
  | at_Lock =>
    continue (CacheMutex_Lock s) (fun _ => at_find) at_Lock s
  | at_find =>
    let key := TypeKey_ctor ks T in
    match deref_sCache s with
    | None => Some (finished Crashed, s)
    | Some c =>
      match mTypes c !! load_value key with
      | Some p => Some (at_Unlock (Returned p), s)
      | None => Some (at_scopedAllocator, s)
      end
    end
  | at_scopedAllocator =>
    match deref_sCache s with
    | None => Some (finished Crashed, s)
    | Some c =>
      let '(scopedAllocator, s) :=
        TScopedAllocator_ctor (Some (mAllocator c)) s in
      Some (at_new scopedAllocator, s)
    end
  | at_new scopedAllocator =>
    continue (new_TType T s) (at_realize scopedAllocator)
             (at_restore scopedAllocator Thrown) s
  | at_realize scopedAllocator type =>
    continue (TType_realize type s) (fun _ => at_insert scopedAllocator type)
             (at_restore scopedAllocator Thrown) s
  | at_insert scopedAllocator type =>
    continue (mTypes_insert (TypeKey_ctor ks T) type s)
             (fun _ => at_restore scopedAllocator (Returned type))
             (at_restore scopedAllocator Thrown) s
  | at_restore scopedAllocator o =>
    Some (at_Unlock o, TScopedAllocator_dtor scopedAllocator s)
  | at_Unlock o => Some (finished o, CacheMutex_Unlock s)
  | finished _ => None
  end.

(** A thread run on its own until its call ends. *)
Fixpoint run_thread (fuel : nat) (ks : list Z) (T : TypeAttrs) (pc : PC)
    (s : State) : option (Outcome * State) :=
  match pc with
  | finished o => Some (o, s)
  | _ =>
    match fuel with
    | O => None
    | S fuel' =>
      match thread_step ks T pc s with
      | None => None
      | Some (pc', s') => run_thread fuel' ks T pc' s'
      end
    end
  end.

(** The positions a thread passes through on its own, each with the
    state it finds there. *)
Fixpoint thread_trace (fuel : nat) (ks : list Z) (T : TypeAttrs) (pc : PC)
    (s : State) : list (PC * State) :=
  (pc, s) ::
  match fuel with
  | O => []
  | S fuel' =>
    match thread_step ks T pc s with
    | None => []
    | Some (pc', s') => thread_trace fuel' ks T pc' s'
    end
  end.

(** The positions at which [scopedAllocator] is alive: from the end of
    its constructor to the start of its destructor. *)
Definition scopedAllocator_alive (pc : PC) : bool :=
  match pc with
  | at_new _ => true
  | at_realize _ _ => true
  | at_insert _ _ => true
  | _ => false
  end.

Record Thread := mkThread {
  thread_key_storage : list Z;
  thread_attrs : TypeAttrs;
  thread_pc : PC
}.

Record System := mkSystem {
  shared : State;
  threads : list Thread
}.

(** Any thread that can take a step may take it. *)
Inductive step : System -> System -> Prop :=
| step_thread (sys : System) (i : nat) (th : Thread) (pc' : PC) (s' : State) :
    threads sys !! i = Some th ->
    thread_step (thread_key_storage th) (thread_attrs th) (thread_pc th)
                (shared sys) = Some (pc', s') ->
    step sys
         (mkSystem s'
            (<[i := mkThread (thread_key_storage th) (thread_attrs th) pc']>
               (threads sys))).

(** The step of thread [i], when it can take one, and the run of a
    schedule, which names the thread to step next. *)
Definition step_of (i : nat) (sys : System) : option System :=
  match threads sys !! i with
  | None => None
  | Some th =>
    match thread_step (thread_key_storage th) (thread_attrs th)
                      (thread_pc th) (shared sys) with
    | None => None
    | Some (pc', s') =>
      Some (mkSystem s'
              (<[i := mkThread (thread_key_storage th) (thread_attrs th) pc']>
                 (threads sys)))
    end
  end.

Fixpoint schedule (order : list nat) (sys : System) : option System :=
  match order with
  | [] => Some sys
  | i :: rest =>
    match step_of i sys with
    | None => None
    | Some sys' => schedule rest sys'
    end
  end.

(** [kss] lists, thread by thread, what the storage of the local key
    holds; every thread is about to call [getType] for [T]. *)
Definition start_threads (kss : list (list Z)) (T : TypeAttrs) : list Thread :=
  map (fun ks => mkThread ks T at_Lock) kss.

Definition is_finished (pc : PC) : bool :=
  match pc with
  | finished _ => true
  | _ => false
  end.

Definition all_finished (sys : System) : bool :=
  forallb (fun th => is_finished (thread_pc th)) (threads sys).

(** The number of statements a thread has still to execute, at most. *)
Definition remaining (pc : PC) : nat :=
  match pc with
  | at_Lock => 8
  | at_find => 7
  | at_scopedAllocator => 6
  | at_new _ => 5
  | at_realize _ _ => 4
  | at_insert _ _ => 3
  | at_restore _ _ => 2
  | at_Unlock _ => 1
  | finished _ => 0
  end.

Definition weight (sys : System) : nat :=
  sum_list (map (fun th => remaining (thread_pc th)) (threads sys)).

(** ** Sequences of calls *)

Inductive Call :=
| Call_initialize
| Call_destroy
| Call_getType (key_storage : list Z) (T : TypeAttrs).

(** The state a call leaves behind, when it comes back at all; a caller
    that catches an exception goes on from the state it was thrown in. *)
Definition state_after {A} (r : Result A) : option State :=
  match r with
  | Returns _ s => Some s
  | Throws s => Some s
  | Undefined => None
  | Blocks => None
  end.

Definition call (c : Call) (s : State) : option State :=
  match c with
  | Call_initialize => state_after (initialize s)
  | Call_destroy => state_after (destroy s)
  | Call_getType key_storage T => state_after (getType key_storage T s)
  end.

Fixpoint run (cs : list Call) (s : State) : option State :=
  match cs with
  | [] => Some s
  | c :: rest =>
    match call c s with
    | None => None
    | Some s' => run rest s'
    end
  end.

Definition is_destroy (c : Call) : bool :=
  match c with
  | Call_destroy => true
  | _ => false
  end.

(** The state of a process before [main]: [sCache] is null, no [TCache]
    exists, the mutex is free, and [fresh] is above every identity in
    use. *)
Definition process_start (s : State) : Prop :=
  sCache s = None /\ caches s = ∅ /\ sCacheMutex s = false /\
  (forall a, is_Some (pools s !! a) -> (a < fresh s)%nat).

Definition reachable (s : State) : Prop :=
  exists s0 cs, process_start s0 /\ run cs s0 = Some s.

(** The entry of the cache for the key of [T], if any. *)
Definition cached (s : State) (k : Z) : option TTypePtr :=
  match deref_sCache s with
  | None => None
  | Some c => mTypes c !! k
  end.

(** ** The invariant of the heap *)

(** What holds of the instance [c] in state [s]: its pool is live,
    every stored pointer designates an allocation made from that pool,
    and no allocation is stored under two keys. *)
Definition cache_inv (s : State) (c : TCache) : Prop :=
  (exists objs, pools s !! mAllocator c = Some objs /\
     forall k p, mTypes c !! k = Some p ->
       exists i, p = in_pool (mAllocator c) i /\ (i < length objs)%nat) /\
  (forall k1 k2 p,
     mTypes c !! k1 = Some p -> mTypes c !! k2 = Some p -> k1 = k2).

Definition heap_inv (s : State) : Prop :=
  (forall a, is_Some (pools s !! a) -> (a < fresh s)%nat) /\
  (forall a, sCache s = Some a ->
     exists c, caches s !! a = Some c /\ cache_inv s c).

(** The invariant between calls: the mutex is free as well. *)
Definition wf (s : State) : Prop :=
  sCacheMutex s = false /\ heap_inv s.

(** The states [getType] passes through on a miss, for the instance
    [c] at [a] whose pool holds [objs]: while [new TType] runs, while
    [realize] runs, after an exception from [realize], and on return. *)
Definition while_new (c : TCache) (s : State) : State :=
  SetGlobalPoolAllocator (Some (mAllocator c)) (set_mutex true s).

Definition while_realize (T : TypeAttrs) (c : TCache) (objs : list TType)
    (s : State) : State :=
  set_pools (<[mAllocator c := objs ++ [mkTType T false]]> (pools s))
            (while_new c s).

Definition after_failed_realize (T : TypeAttrs) (c : TCache)
    (objs : list TType) (s : State) : State :=
  set_pools (<[mAllocator c := objs ++ [mkTType T false]]> (pools s)) s.

Definition after_miss (k : Z) (T : TypeAttrs) (a : nat) (c : TCache)
    (objs : list TType) (s : State) : State :=
  set_caches
    (<[a := mkTCache (<[k := in_pool (mAllocator c) (length objs)]> (mTypes c))
                     (mAllocator c)]> (caches s))
    (set_pools (<[mAllocator c := objs ++ [mkTType T true]]> (pools s)) s).

(** The state [initialize] leaves when it has constructed the
    singleton, and the state [destroy] leaves when it has deleted the
    instance [c] at [a]. *)
Definition after_initialize (s : State) : State :=
  mkState (Some (fresh s))
          (<[fresh s := mkTCache ∅ (fresh s)]> (caches s))
          (<[fresh s := []]> (pools s))
          (globalPoolAllocator s) (sCacheMutex s) (S (fresh s)).

Definition after_destroy (a : nat) (c : TCache) (s : State) : State :=
  mkState None (delete a (caches s)) (delete (mAllocator c) (pools s))
          (globalPoolAllocator s) (sCacheMutex s) (fresh s).

(** What a call that is not [destroy] keeps: the singleton, the ambient
    allocator, the identities in use, and every entry of the map. *)
Definition extends (s s' : State) : Prop :=
  sCache s' = sCache s /\
  globalPoolAllocator s' = globalPoolAllocator s /\
  fresh s' = fresh s /\
  forall k p, cached s k = Some p -> cached s' k = Some p.

(** ** Reading descriptors, and what the cache owns *)

(** Reading through a [const TType *]: the descriptor it designates,
    when the pointer is not null and its pool is live. *)
Definition TType_at (s : State) (p : TTypePtr) : option TType :=
  match p with
  | nullptr => None
  | in_pool m i =>
    match pools s !! m with
    | None => None
    | Some objs => objs !! i
    end
  end.

(** The key value [getType] computes for a tuple. *)
Definition key_of (T : TypeAttrs) : Z := load_value (TypeKey_ctor [] T).

(** What holds between calls of a process whose pools at its start
    were [P0] and whose ambient allocator was [g0]: the callers' pools
    and the ambient allocator are as they were; no [TCache] is alive
    but the one [sCache] points to, whose pool is not a caller's; and
    every entry of its map designates a realized descriptor, built from
    a tuple that has the key of the entry. *)
Definition owned_inv (P0 : gmap nat (list TType)) (g0 : option nat)
    (s : State) : Prop :=
  globalPoolAllocator s = g0 /\
  match sCache s with
  | None => caches s = ∅ /\ pools s = P0
  | Some a =>
    exists c objs,
      caches s = {[a := c]} /\
      P0 !! mAllocator c = None /\
      pools s = <[mAllocator c := objs]> P0 /\
      forall k p, mTypes c !! k = Some p ->
        exists i t, p = in_pool (mAllocator c) i /\ objs !! i = Some t /\
          realized t = true /\ key_of (type_attrs t) = k
  end.

(** ** The invariant of concurrent calls *)

(** Threads call [getType] for [T], whose key is [k], starting in state
    [s0], where the singleton is [c] at [a], its pool holds [objs] and
    [k] is not in the map. The descriptor of [T] is either not yet
    published, and the state between critical sections is [s0], or it
    is, and that state is the one a single miss leaves. *)
Definition base (published : bool) (k : Z) (T : TypeAttrs) (a : nat)
    (c : TCache) (objs : list TType) (s0 : State) : State :=
  if published then after_miss k T a c objs s0 else s0.

Definition while_insert (T : TypeAttrs) (c : TCache) (objs : list TType)
    (s0 : State) : State :=
  set_pools (<[mAllocator c := objs ++ [mkTType T true]]> (pools s0))
            (while_new c s0).

Definition while_restore (k : Z) (T : TypeAttrs) (a : nat) (c : TCache)
    (objs : list TType) (s0 : State) : State :=
  SetGlobalPoolAllocator (Some (mAllocator c))
    (set_mutex true (after_miss k T a c objs s0)).

(** The shared state and the locals of the thread that holds the
    mutex, position by position. *)
Definition in_section (k : Z) (T : TypeAttrs) (a : nat) (c : TCache)
    (objs : list TType) (s0 : State) (published : bool) (pc : PC)
    (st : State) : Prop :=
  let p := in_pool (mAllocator c) (length objs) in
  let sc := mkTScopedAllocator (globalPoolAllocator s0) in
  match pc with
  | at_Lock => False
  | at_find => st = set_mutex true (base published k T a c objs s0)
  | at_scopedAllocator => published = false /\ st = set_mutex true s0
  | at_new sc' => published = false /\ sc' = sc /\ st = while_new c s0
  | at_realize sc' ty =>
    published = false /\ sc' = sc /\ ty = p /\ st = while_realize T c objs s0
  | at_insert sc' ty =>
    published = false /\ sc' = sc /\ ty = p /\ st = while_insert T c objs s0
  | at_restore sc' o =>
    published = true /\ sc' = sc /\ o = Returned p /\
    st = while_restore k T a c objs s0
  | at_Unlock o =>
    published = true /\ o = Returned p /\
    st = set_mutex true (after_miss k T a c objs s0)
  | finished _ => False
  end.

(** Outside the critical section: not yet in it, or done. *)
Definition is_idle (pc : PC) : bool :=
  match pc with
  | at_Lock => true
  | finished _ => true
  | _ => false
  end.

Definition concurrent_inv (k : Z) (T : TypeAttrs) (a : nat) (c : TCache)
    (objs : list TType) (s0 : State) (n : nat) (sys : System) : Prop :=
  length (threads sys) = n /\
  exists published : bool,
    (forall j th, threads sys !! j = Some th ->
       thread_attrs th = T /\
       match thread_pc th with
       | finished o =>
         published = true /\
         o = Returned (in_pool (mAllocator c) (length objs))
       | _ => True
       end) /\
    ((shared sys = base published k T a c objs s0 /\
      forall j th, threads sys !! j = Some th ->
        is_idle (thread_pc th) = true) \/
     (exists i th, threads sys !! i = Some th /\
        in_section k T a c objs s0 published (thread_pc th) (shared sys) /\
        forall j th', j <> i -> threads sys !! j = Some th' ->
          is_idle (thread_pc th') = true)).

(** ** Calls of threads, one after the other *)

Global Instance Outcome_eq_dec : EqDecision Outcome.
Proof. solve_decision. Defined.

(** The outcome and the state of a call that came back. *)
Definition call_outcome (r : Result TTypePtr) : option (Outcome * State) :=
  match r with
  | Returns p s => Some (Returned p, s)
  | Throws s => Some (Thrown, s)
  | Undefined => None
  | Blocks => None
  end.

(** What the call of a thread has produced, once it has ended. *)
Definition thread_result (th : Thread) : option Outcome :=
  match thread_pc th with
  | finished o => Some o
  | _ => None
  end.

(** The calls of the threads named in [order], made one after the other
    by [getType] from state [s]: the state they leave, provided every
    call comes back with the outcome its thread has recorded. *)
Fixpoint serial (order : list nat) (ths : list Thread) (s : State)
  : option State :=
  match order with
  | [] => Some s
  | i :: rest =>
    match ths !! i with
    | None => None
    | Some th =>
      match call_outcome
              (getType (thread_key_storage th) (thread_attrs th) s) with
      | None => None
      | Some (o, s') =>
        if decide (thread_result th = Some o) then serial rest ths s'
        else None
      end
    end
  end.

(** The invariant of threads that started in state [s]: unless a
    thread has crashed, the threads in [done] have finished, in that
    order, and their calls made one after the other lead from [s] to a
    state [s_d]; the shared state is [s_d] and no thread is in the
    critical section, or one thread is, and the rest of its run is the
    rest of a call of [getType] made in [s_d]. *)
Definition serial_inv (s : State) (sys : System) : Prop :=
  (exists j th, threads sys !! j = Some th /\
     thread_pc th = finished Crashed) \/
  exists done s_d,
    NoDup done /\ serial done (threads sys) s = Some s_d /\
    sCacheMutex s_d = false /\
    (forall j, j ∈ done <->
       exists th, threads sys !! j = Some th /\
         is_finished (thread_pc th) = true) /\
    ((shared sys = s_d /\
      forall j th, threads sys !! j = Some th ->
        is_idle (thread_pc th) = true) \/
     (exists h th, threads sys !! h = Some th /\
        is_idle (thread_pc th) = false /\
        sCacheMutex (shared sys) = true /\
        run_thread (remaining (thread_pc th)) (thread_key_storage th)
                   (thread_attrs th) (thread_pc th) (shared sys) =
        run_thread 8 (thread_key_storage th) (thread_attrs th) at_Lock s_d /\
        forall j th', j <> h -> threads sys !! j = Some th' ->
          is_idle (thread_pc th') = true)).

(** * Properties *)

(** ** Byte-level facts *)

Lemma le_encode_zero (n : nat) : le_encode n 0 = replicate n 0.
Proof.
  induction n as [|n IH]; simpl; [reflexivity|].
  rewrite Z.mod_0_l, Z.div_0_l by lia. now rewrite IH.
Qed.

Lemma le_decode_range (bs : list Z) :
  Forall uchar bs -> 0 <= le_decode bs < 256 ^ Z.of_nat (length bs).
Proof.
  induction 1 as [|b bs Hb _ IH]; simpl length; simpl le_decode.
  - simpl. lia.
  - rewrite Nat2Z.inj_succ, Z.pow_succ_r by lia.
    unfold uchar in Hb. lia.
Qed.

Lemma le_decode_inj (l1 l2 : list Z) :
  length l1 = length l2 -> Forall uchar l1 -> Forall uchar l2 ->
  le_decode l1 = le_decode l2 -> l1 = l2.
Proof.
  revert l2. induction l1 as [|a l1 IH]; intros [|b l2] Hlen H1 H2 Heq;
    simpl in Hlen; try discriminate; [reflexivity|].
  inversion H1 as [|? ? Ha H1']; subst.
  inversion H2 as [|? ? Hb H2']; subst.
  simpl in Heq. unfold uchar in Ha, Hb.
  assert (a = b) by lia. subst b.
  f_equal. apply IH; auto; lia.
Qed.

Lemma take_list_insert {A} (n i : nat) (x : A) (l : list A) :
  take n (<[i := x]> l) = <[i := x]> (take n l).
Proof.
  destruct (decide (i < n)%nat) as [Hlt|Hge].
  - now apply take_insert_lt.
  - rewrite take_insert_ge by lia.
    symmetry. apply list_insert_ge. rewrite length_take. lia.
Qed.

(** ** The key encoder *)

Lemma value_bytes_zero : value_bytes 0 = replicate value_size 0.
Proof.
  unfold value_bytes. rewrite le_encode_zero.
  destruct big_endian; [apply reverse_replicate | reflexivity].
Qed.

(** The bytes of [value] after construction: zero, overwritten by the
    five components, whatever the storage held before. *)
Lemma TypeKey_ctor_value_bytes (this : list Z) (T : TypeAttrs) :
  take value_size (TypeKey_ctor this T) =
  <[4%nat := secondarySize T]>
    (<[3%nat := primarySize T]>
      (<[2%nat := static_cast_EnumComponentType (qualifier T)]>
        (<[1%nat := static_cast_EnumComponentType (precision T)]>
          (<[0%nat := static_cast_EnumComponentType (basicType T)]>
            (replicate value_size 0))))).
Proof.
  unfold TypeKey_ctor, store_value.
  rewrite !take_list_insert, value_bytes_zero.
  rewrite take_app_length' by now rewrite length_replicate.
  reflexivity.
Qed.

Lemma load_value_ctor_indep (this1 this2 : list Z) (T : TypeAttrs) :
  load_value (TypeKey_ctor this1 T) = load_value (TypeKey_ctor this2 T).
Proof.
  unfold load_value. now rewrite !TypeKey_ctor_value_bytes.
Qed.

Lemma TypeKey_ctor_value_bytes_5 (this : list Z) (T : TypeAttrs) :
  TypeKey_static_assert ->
  take value_size (TypeKey_ctor this T) =
  [static_cast_EnumComponentType (basicType T);
   static_cast_EnumComponentType (precision T);
   static_cast_EnumComponentType (qualifier T);
   primarySize T; secondarySize T] ++ replicate (value_size - 5) 0.
Proof.
  unfold TypeKey_static_assert, sizeof_components. intros Hsz.
  rewrite TypeKey_ctor_value_bytes.
  replace value_size with (5 + (value_size - 5))%nat at 1 by lia.
  reflexivity.
Qed.

Lemma static_cast_uchar (e : Z) : uchar (static_cast_EnumComponentType e).
Proof.
  unfold uchar, static_cast_EnumComponentType.
  apply Z.mod_pos_bound. lia.
Qed.

Lemma static_cast_id (e : Z) : uchar e -> static_cast_EnumComponentType e = e.
Proof.
  unfold uchar, static_cast_EnumComponentType. intros H.
  now apply Z.mod_small.
Qed.

Lemma Forall_uchar_replicate (n : nat) : Forall uchar (replicate n 0).
Proof.
  apply Forall_replicate. unfold uchar. lia.
Qed.

Lemma TypeKey_value_inj (this1 this2 : list Z) (T1 T2 : TypeAttrs) :
  TypeKey_static_assert ->
  attrs_in_domain T1 -> attrs_in_domain T2 ->
  load_value (TypeKey_ctor this1 T1) = load_value (TypeKey_ctor this2 T2) ->
  T1 = T2.
Proof.
  intros Hsz (Hb1 & Hp1 & Hq1 & Hs1 & Ht1) (Hb2 & Hp2 & Hq2 & Hs2 & Ht2) Heq.
  unfold load_value in Heq.
  rewrite !TypeKey_ctor_value_bytes_5 in Heq by assumption.
  assert (Hbytes :
    [static_cast_EnumComponentType (basicType T1);
     static_cast_EnumComponentType (precision T1);
     static_cast_EnumComponentType (qualifier T1);
     primarySize T1; secondarySize T1] ++ replicate (value_size - 5) 0 =
    [static_cast_EnumComponentType (basicType T2);
     static_cast_EnumComponentType (precision T2);
     static_cast_EnumComponentType (qualifier T2);
     primarySize T2; secondarySize T2] ++ replicate (value_size - 5) 0).
  { assert (Hall : forall T, uchar (primarySize T) -> uchar (secondarySize T) ->
      Forall uchar
        ([static_cast_EnumComponentType (basicType T);
          static_cast_EnumComponentType (precision T);
          static_cast_EnumComponentType (qualifier T);
          primarySize T; secondarySize T] ++ replicate (value_size - 5) 0)).
    { intros T Hs Ht. apply Forall_app. split.
      - rewrite !Forall_cons, Forall_nil.
        repeat (split; [now auto using static_cast_uchar|]). exact I.
      - apply Forall_uchar_replicate. }
    destruct big_endian.
    - apply (inj reverse). apply le_decode_inj; auto.
      + now rewrite !length_reverse, !length_app, !length_replicate.
      + apply Forall_reverse. auto.
      + apply Forall_reverse. auto.
    - apply le_decode_inj; auto. }
  injection Hbytes as Eb Ep Eq Es Et.
  rewrite !static_cast_id in * by assumption.
  destruct T1, T2; simpl in *; congruence.
Qed.

(** When the [ASSERT] of the constructor holds, enumerators up to the
    last ones are within the one-byte domain. *)
Lemma TypeKey_ASSERT_domain (EbtLast EbpLast EvqLast : Z) (T : TypeAttrs) :
  TypeKey_ASSERT EbtLast EbpLast EvqLast = true ->
  0 <= basicType T <= EbtLast ->
  0 <= precision T <= EbpLast ->
  0 <= qualifier T <= EvqLast ->
  uchar (primarySize T) -> uchar (secondarySize T) ->
  attrs_in_domain T.
Proof.
  unfold TypeKey_ASSERT, EnumComponentType_max, attrs_in_domain, uchar.
  rewrite !andb_true_iff, !Z.leb_le. lia.
Qed.

(** ** The calls, one at a time *)

Lemma unlock_lock (s : State) :
  sCacheMutex s = false -> CacheMutex_Unlock (set_mutex true s) = s.
Proof.
  destruct s; simpl; intros ->; reflexivity.
Qed.

Lemma AutoEnterCacheMutex_free {A} (body : State -> Result A) (s : State) :
  sCacheMutex s = false ->
  AutoEnterCacheMutex body s =
  at_scope_exit CacheMutex_Unlock (body (set_mutex true s)).
Proof.
  intros Hm. unfold AutoEnterCacheMutex, CacheMutex_Lock. now rewrite Hm.
Qed.

Lemma AutoEnterCacheMutex_held {A} (body : State -> Result A) (s : State) :
  sCacheMutex s = true -> AutoEnterCacheMutex body s = Blocks.
Proof.
  intros Hm. unfold AutoEnterCacheMutex, CacheMutex_Lock. now rewrite Hm.
Qed.

Lemma getType_hit (ks : list Z) (T : TypeAttrs) (s : State) (c : TCache)
    (p : TTypePtr) :
  sCacheMutex s = false ->
  deref_sCache s = Some c ->
  mTypes c !! load_value (TypeKey_ctor ks T) = Some p ->
  getType ks T s = Returns p s.
Proof.
  intros Hm Hc Hp. unfold getType.
  rewrite AutoEnterCacheMutex_free by assumption.
  replace (deref_sCache (set_mutex true s)) with (deref_sCache s)
    by reflexivity.
  rewrite Hc, Hp. simpl. now rewrite unlock_lock.
Qed.

Lemma getType_miss (ks : list Z) (T : TypeAttrs) (s : State) (a : nat)
    (c : TCache) (objs : list TType) :
  sCacheMutex s = false ->
  sCache s = Some a -> caches s !! a = Some c ->
  pools s !! mAllocator c = Some objs ->
  mTypes c !! load_value (TypeKey_ctor ks T) = None ->
  getType ks T s =
  if new_TType_throws T (while_new c s) then Throws s
  else if realize_throws (in_pool (mAllocator c) (length objs))
                         (while_realize T c objs s)
       then Throws (after_failed_realize T c objs s)
       else Returns (in_pool (mAllocator c) (length objs))
                    (after_miss (load_value (TypeKey_ctor ks T)) T a c objs s).
Proof.
  intros Hm Ha Hc Hpool Hmiss. unfold getType.
  rewrite AutoEnterCacheMutex_free by assumption.
  unfold deref_sCache. simpl sCache. rewrite Ha.
  simpl caches. rewrite Hc, Hmiss.
  unfold TScopedAllocator_ctor.
  fold (while_new c s).
  unfold new_TType. simpl GetGlobalPoolAllocator. cbv beta iota.
  change (pools (while_new c s)) with (pools s). rewrite Hpool.
  destruct (new_TType_throws T (while_new c s)).
  { simpl. unfold TScopedAllocator_dtor, SetGlobalPoolAllocator,
      CacheMutex_Unlock, set_mutex. simpl.
    destruct s; simpl in *; subst; reflexivity. }
  fold (while_realize T c objs s).
  unfold bind at 1. unfold TType_realize.
  change (pools (while_realize T c objs s))
    with (<[mAllocator c := objs ++ [mkTType T false]]> (pools s)).
  rewrite lookup_insert_eq.
  rewrite lookup_app_r, Nat.sub_diag by lia. simpl lookup.
  destruct (realize_throws _ (while_realize T c objs s)).
  { simpl. unfold after_failed_realize, TScopedAllocator_dtor,
      SetGlobalPoolAllocator, CacheMutex_Unlock, set_mutex, set_pools. simpl.
    destruct s; simpl in *; subst; reflexivity. }
  unfold bind at 1. unfold mTypes_insert. simpl sCache. rewrite Ha.
  simpl caches. rewrite Hc. unfold bind. unfold map_insert. rewrite Hmiss.
  simpl. unfold after_miss, TScopedAllocator_dtor, SetGlobalPoolAllocator,
    CacheMutex_Unlock, set_mutex, set_pools, set_caches. simpl.
  rewrite insert_insert_eq.
  rewrite insert_app_r_alt, Nat.sub_diag by lia. simpl.
  destruct s; simpl in *; subst; reflexivity.
Qed.

Lemma initialize_null (s : State) :
  sCacheMutex s = false -> sCache s = None ->
  initialize s = Returns tt (after_initialize s).
Proof.
  intros Hm Hn. unfold initialize.
  rewrite AutoEnterCacheMutex_free by assumption.
  simpl sCache. rewrite Hn. simpl.
  unfold after_initialize, CacheMutex_Unlock, set_mutex, set_sCache. simpl.
  now rewrite Hm.
Qed.

Lemma initialize_nonnull (s : State) (a : nat) :
  sCacheMutex s = false -> sCache s = Some a ->
  initialize s = Returns tt s.
Proof.
  intros Hm Ha. unfold initialize.
  rewrite AutoEnterCacheMutex_free by assumption.
  simpl sCache. rewrite Ha. simpl. now rewrite unlock_lock.
Qed.

Lemma destroy_null (s : State) :
  sCacheMutex s = false -> sCache s = None ->
  destroy s = Returns tt s.
Proof.
  intros Hm Hn. unfold destroy.
  rewrite AutoEnterCacheMutex_free by assumption.
  unfold SafeDelete_sCache. simpl sCache. rewrite Hn. simpl.
  unfold CacheMutex_Unlock, set_mutex, set_sCache. simpl.
  destruct s; simpl in *; subst; reflexivity.
Qed.

Lemma destroy_nonnull (s : State) (a : nat) (c : TCache) :
  sCacheMutex s = false -> sCache s = Some a -> caches s !! a = Some c ->
  destroy s = Returns tt (after_destroy a c s).
Proof.
  intros Hm Ha Hc. unfold destroy.
  rewrite AutoEnterCacheMutex_free by assumption.
  unfold SafeDelete_sCache. simpl sCache. rewrite Ha.
  unfold delete_TCache. simpl caches. rewrite Hc. simpl.
  unfold after_destroy. now rewrite Hm.
Qed.

(** ** The invariant is kept *)

Lemma heap_inv_after_initialize (s : State) :
  heap_inv s -> heap_inv (after_initialize s).
Proof.
  intros [Hfresh _]. split; simpl.
  - intros x Hx. destruct (decide (x = fresh s)) as [->|Hne]; [lia|].
    rewrite lookup_insert_ne in Hx by congruence.
    specialize (Hfresh x Hx). lia.
  - intros a [= <-]. exists (mkTCache ∅ (fresh s)).
    rewrite lookup_insert_eq. split; [reflexivity|].
    split; simpl.
    + exists []. rewrite lookup_insert_eq. split; [reflexivity|].
      intros k p Hk. now rewrite lookup_empty in Hk.
    + intros k1 k2 p Hk. now rewrite lookup_empty in Hk.
Qed.

Lemma heap_inv_after_destroy (s : State) (a : nat) (c : TCache) :
  heap_inv s -> heap_inv (after_destroy a c s).
Proof.
  intros [Hfresh _]. split; simpl.
  - intros x Hx. apply Hfresh.
    destruct (decide (mAllocator c = x)) as [<-|Hne].
    + rewrite lookup_delete_eq in Hx. now destruct Hx.
    + now rewrite lookup_delete_ne in Hx.
  - discriminate.
Qed.

Lemma heap_inv_after_failed_realize (T : TypeAttrs) (a : nat) (c : TCache)
    (objs : list TType) (s : State) :
  heap_inv s -> sCache s = Some a -> caches s !! a = Some c ->
  pools s !! mAllocator c = Some objs ->
  heap_inv (after_failed_realize T c objs s).
Proof.
  intros [Hfresh Hc] Ha Hca Hpool. split; simpl.
  - intros x Hx. apply Hfresh.
    destruct (decide (mAllocator c = x)) as [<-|Hne].
    + now rewrite Hpool.
    + now rewrite lookup_insert_ne in Hx.
  - intros a' Ha'. rewrite Ha in Ha'. injection Ha' as <-.
    destruct (Hc a Ha) as (c' & Hc' & (objs' & Hp' & Hent) & Hinj).
    rewrite Hca in Hc'. injection Hc' as <-.
    rewrite Hpool in Hp'. injection Hp' as <-.
    exists c. split; [assumption|]. split; [|assumption].
    exists (objs ++ [mkTType T false]). simpl pools.
    rewrite lookup_insert_eq.
    split; [reflexivity|].
    intros k p Hk. destruct (Hent k p Hk) as (i & -> & Hi).
    exists i. split; [reflexivity|]. rewrite length_app. simpl. lia.
Qed.

Lemma heap_inv_after_miss (k : Z) (T : TypeAttrs) (a : nat) (c : TCache)
    (objs : list TType) (s : State) :
  heap_inv s -> sCache s = Some a -> caches s !! a = Some c ->
  pools s !! mAllocator c = Some objs ->
  heap_inv (after_miss k T a c objs s).
Proof.
  intros [Hfresh Hc] Ha Hca Hpool. split; simpl.
  - intros x Hx. apply Hfresh.
    destruct (decide (mAllocator c = x)) as [<-|Hne].
    + now rewrite Hpool.
    + now rewrite lookup_insert_ne in Hx.
  - intros a' Ha'. rewrite Ha in Ha'. injection Ha' as <-.
    destruct (Hc a Ha) as (c' & Hc' & (objs' & Hp' & Hent) & Hinj).
    rewrite Hca in Hc'. injection Hc' as <-.
    rewrite Hpool in Hp'. injection Hp' as <-.
    eexists. rewrite lookup_insert_eq. split; [reflexivity|].
    split; simpl.
    + exists (objs ++ [mkTType T true]). simpl pools.
      rewrite lookup_insert_eq.
      split; [reflexivity|].
      intros k' p Hk'. rewrite length_app. simpl.
      destruct (decide (k = k')) as [<-|Hne].
      * rewrite lookup_insert_eq in Hk'. injection Hk' as <-.
        exists (length objs). split; [reflexivity|lia].
      * rewrite lookup_insert_ne in Hk' by assumption.
        destruct (Hent k' p Hk') as (i & -> & Hi).
        exists i. split; [reflexivity|lia].
    + intros k1 k2 p H1 H2.
      destruct (decide (k = k1)) as [<-|Hne1];
        destruct (decide (k = k2)) as [<-|Hne2]; [reflexivity| | |].
      * rewrite lookup_insert_eq in H1. injection H1 as <-.
        rewrite lookup_insert_ne in H2 by assumption.
        destruct (Hent k2 _ H2) as (i & [= <-] & Hi). lia.
      * rewrite lookup_insert_eq in H2. injection H2 as <-.
        rewrite lookup_insert_ne in H1 by assumption.
        destruct (Hent k1 _ H1) as (i & [= <-] & Hi). lia.
      * rewrite lookup_insert_ne in H1, H2 by assumption.
        now apply (Hinj k1 k2 p).
Qed.

Lemma extends_refl (s : State) : extends s s.
Proof. unfold extends. auto. Qed.

Lemma extends_trans (s1 s2 s3 : State) :
  extends s1 s2 -> extends s2 s3 -> extends s1 s3.
Proof.
  unfold extends. intros (A1 & B1 & C1 & D1) (A2 & B2 & C2 & D2).
  repeat split; try congruence. auto.
Qed.

Lemma extends_after_failed_realize (T : TypeAttrs) (c : TCache)
    (objs : list TType) (s : State) :
  extends s (after_failed_realize T c objs s).
Proof. unfold extends. auto. Qed.

Lemma cached_after_miss (k : Z) (T : TypeAttrs) (a : nat) (c : TCache)
    (objs : list TType) (s : State) (k' : Z) :
  sCache s = Some a ->
  cached (after_miss k T a c objs s) k' =
  <[k := in_pool (mAllocator c) (length objs)]> (mTypes c) !! k'.
Proof.
  intros Ha. unfold cached, deref_sCache. simpl. rewrite Ha.
  now rewrite lookup_insert_eq.
Qed.

Lemma extends_after_miss (k : Z) (T : TypeAttrs) (a : nat) (c : TCache)
    (objs : list TType) (s : State) :
  sCache s = Some a -> caches s !! a = Some c -> mTypes c !! k = None ->
  extends s (after_miss k T a c objs s).
Proof.
  intros Ha Hc Hk. unfold extends. repeat split.
  intros k' p Hk'. rewrite cached_after_miss by assumption.
  unfold cached, deref_sCache in Hk'. rewrite Ha, Hc in Hk'.
  rewrite lookup_insert_ne; [assumption|]. congruence.
Qed.

(** On an initialized cache [getType] returns or throws; the state it
    leaves satisfies the invariant and keeps every entry; the pointer
    it returns is stored under the key. *)
Lemma getType_wf (ks : list Z) (T : TypeAttrs) (s : State) :
  wf s -> is_Some (sCache s) ->
  exists s', wf s' /\ extends s s' /\
    ((exists p, getType ks T s = Returns p s' /\
        cached s' (load_value (TypeKey_ctor ks T)) = Some p) \/
     getType ks T s = Throws s').
Proof.
  intros [Hm Hinv] [a Ha].
  destruct (proj2 Hinv a Ha) as (c & Hc & (objs & Hpool & Hent) & Hinj).
  destruct (mTypes c !! load_value (TypeKey_ctor ks T)) as [p|] eqn:Hk.
  - exists s. split; [now split|]. split; [apply extends_refl|].
    left. exists p. split.
    + apply getType_hit with c; auto. unfold deref_sCache. now rewrite Ha.
    + unfold cached, deref_sCache. now rewrite Ha, Hc.
  - rewrite (getType_miss ks T s a c objs) by assumption.
    destruct (new_TType_throws T (while_new c s)).
    { exists s. split; [now split|]. split; [apply extends_refl|]. now right. }
    destruct (realize_throws _ (while_realize T c objs s)).
    { exists (after_failed_realize T c objs s). split.
      - split; [assumption|]. now apply heap_inv_after_failed_realize with a.
      - split; [apply extends_after_failed_realize|]. now right. }
    eexists. split; [|split; [|left; eexists; split; [reflexivity|]]].
    + split; [assumption|]. now apply heap_inv_after_miss.
    + now apply extends_after_miss.
    + rewrite cached_after_miss by assumption. apply lookup_insert_eq.
Qed.

Lemma call_wf (c : Call) (s s' : State) :
  wf s -> call c s = Some s' -> wf s'.
Proof.
  intros Hwf Hcall. pose proof Hwf as [Hm Hinv].
  destruct c as [| |ks T]; simpl in Hcall.
  - destruct (sCache s) as [a|] eqn:Ha.
    + rewrite (initialize_nonnull s a) in Hcall by assumption.
      now injection Hcall as <-.
    + rewrite initialize_null in Hcall by assumption.
      injection Hcall as <-. split; [assumption|].
      now apply heap_inv_after_initialize.
  - destruct (sCache s) as [a|] eqn:Ha.
    + destruct (proj2 Hinv a Ha) as (c & Hc & _).
      rewrite (destroy_nonnull s a c) in Hcall by assumption.
      injection Hcall as <-. split; [assumption|].
      now apply heap_inv_after_destroy.
    + rewrite destroy_null in Hcall by assumption.
      now injection Hcall as <-.
  - destruct (sCache s) as [a|] eqn:Ha.
    + destruct (getType_wf ks T s Hwf) as (s1 & Hwf1 & _ & [(p & Hr & _)|Hr]);
        [rewrite Ha; eauto| |]; rewrite Hr in Hcall; simpl in Hcall; congruence.
    + unfold getType in Hcall.
      rewrite AutoEnterCacheMutex_free in Hcall by assumption.
      unfold deref_sCache in Hcall. simpl in Hcall. rewrite Ha in Hcall.
      discriminate.
Qed.

Lemma run_wf (cs : list Call) (s s' : State) :
  wf s -> run cs s = Some s' -> wf s'.
Proof.
  revert s. induction cs as [|c cs IH]; simpl; intros s Hwf Hrun.
  - congruence.
  - destruct (call c s) as [s1|] eqn:Hc; [|discriminate].
    apply (IH s1); [|assumption]. now apply call_wf with c s.
Qed.

Lemma process_start_wf (s : State) : process_start s -> wf s.
Proof.
  intros (Hn & _ & Hm & Hfresh). split; [assumption|].
  split; [assumption|]. intros a Ha. congruence.
Qed.

Lemma reachable_wf (s : State) : reachable s -> wf s.
Proof.
  intros (s0 & cs & Hstart & Hrun).
  apply run_wf with cs s0; [|assumption]. now apply process_start_wf.
Qed.

(** Calls other than [destroy] on an initialized cache all come back,
    and keep the cache and its entries. *)
Lemma call_extends (c : Call) (s : State) :
  wf s -> is_Some (sCache s) -> is_destroy c = false ->
  exists s', call c s = Some s' /\ wf s' /\ extends s s'.
Proof.
  intros Hwf [a Ha] Hnd. pose proof Hwf as [Hm Hinv].
  destruct c as [| |ks T]; simpl in *; [|discriminate|].
  - exists s. rewrite (initialize_nonnull s a) by assumption.
    auto using extends_refl.
  - destruct (getType_wf ks T s Hwf) as (s1 & Hwf1 & Hext & [(p & Hr & _)|Hr]);
      [rewrite Ha; eauto| |]; rewrite Hr; simpl; eauto.
Qed.

Lemma run_extends (cs : list Call) (s : State) :
  wf s -> is_Some (sCache s) -> forallb (fun c => negb (is_destroy c)) cs = true ->
  exists s', run cs s = Some s' /\ wf s' /\ extends s s'.
Proof.
  revert s. induction cs as [|c cs IH]; simpl; intros s Hwf Hinit Hnd.
  - exists s. auto using extends_refl.
  - apply andb_prop in Hnd as [Hc Hcs].
    apply negb_true_iff in Hc.
    destruct (call_extends c s Hwf Hinit Hc) as (s1 & -> & Hwf1 & Hext1).
    destruct (IH s1 Hwf1) as (s2 & Hrun & Hwf2 & Hext2); [|assumption|].
    + destruct Hext1 as [-> _]. assumption.
    + exists s2. eauto using extends_trans.
Qed.

Lemma getType_null (ks : list Z) (T : TypeAttrs) (s : State) :
  sCacheMutex s = false -> sCache s = None -> getType ks T s = Undefined.
Proof.
  intros Hm Hn. unfold getType.
  rewrite AutoEnterCacheMutex_free by assumption.
  unfold deref_sCache. simpl sCache. now rewrite Hn.
Qed.

Lemma getType_returns_initialized (ks : list Z) (T : TypeAttrs)
    (s s' : State) (p : TTypePtr) :
  wf s -> getType ks T s = Returns p s' -> is_Some (sCache s).
Proof.
  intros [Hm _] Hr. destruct (sCache s) eqn:Hs; [eauto|].
  rewrite getType_null in Hr by assumption. discriminate.
Qed.

Lemma getType_returns_wf (ks : list Z) (T : TypeAttrs)
    (s s' : State) (p : TTypePtr) :
  wf s -> getType ks T s = Returns p s' ->
  wf s' /\ extends s s' /\ cached s' (load_value (TypeKey_ctor ks T)) = Some p.
Proof.
  intros Hwf Hr.
  pose proof (getType_returns_initialized _ _ _ _ _ Hwf Hr) as Hinit.
  destruct (getType_wf ks T s Hwf Hinit) as (s1 & Hwf1 & Hext & [(q & Hq & Hc)|Hq]);
    rewrite Hq in Hr; [|discriminate].
  injection Hr as -> ->. auto.
Qed.

Lemma wf_cached_in_pool (s : State) (k : Z) (p : TTypePtr) :
  wf s -> cached s k = Some p ->
  exists m i, p = in_pool m i /\ (m < fresh s)%nat.
Proof.
  intros [_ [Hfresh Hinv]] Hk. unfold cached, deref_sCache in Hk.
  destruct (sCache s) as [a|] eqn:Ha; [|discriminate].
  destruct (Hinv a eq_refl) as (c & Hc & (objs & Hpool & Hent) & _).
  rewrite Hc in Hk. destruct (Hent k p Hk) as (i & -> & _).
  exists (mAllocator c), i. split; [reflexivity|].
  apply Hfresh. now rewrite Hpool.
Qed.

Lemma wf_cached_inj (s : State) (k1 k2 : Z) (p : TTypePtr) :
  wf s -> cached s k1 = Some p -> cached s k2 = Some p -> k1 = k2.
Proof.
  intros [_ [_ Hinv]] H1 H2. unfold cached, deref_sCache in H1, H2.
  destruct (sCache s) as [a|] eqn:Ha; [|discriminate].
  destruct (Hinv a eq_refl) as (c & Hc & _ & Hinj).
  rewrite Hc in H1, H2. now apply (Hinj k1 k2 p).
Qed.

(** ** The claims *)

(** C1. Interning idempotence: once [getType] has returned [p] for the
    tuple [T], then after any calls among which there is no [destroy],
    a further [getType] for [T] returns the same pointer [p], whatever
    the storage of its local key held, and changes nothing; every entry
    of the map is still there, with the pointer it had. *)
Theorem getType_interning (ks1 ks2 : list Z) (T : TypeAttrs)
    (cs : list Call) (s s1 : State) (p : TTypePtr) :
  reachable s ->
  getType ks1 T s = Returns p s1 ->
  forallb (fun c => negb (is_destroy c)) cs = true ->
  exists s2, run cs s1 = Some s2 /\
    getType ks2 T s2 = Returns p s2 /\
    forall k q, cached s1 k = Some q -> cached s2 k = Some q.
Proof.
  intros Hreach Hfirst Hnd.
  pose proof (reachable_wf s Hreach) as Hwf.
  destruct (getType_returns_wf _ _ _ _ _ Hwf Hfirst) as (Hwf1 & Hext1 & Hc1).
  pose proof (getType_returns_initialized _ _ _ _ _ Hwf Hfirst) as Hinit.
  assert (Hinit1 : is_Some (sCache s1)) by (destruct Hext1 as [-> _]; auto).
  destruct (run_extends cs s1 Hwf1 Hinit1 Hnd) as (s2 & Hrun & Hwf2 & Hext2).
  exists s2. split; [assumption|]. split; [|apply Hext2].
  destruct Hext2 as (_ & _ & _ & Hkeep).
  specialize (Hkeep _ _ Hc1).
  rewrite (load_value_ctor_indep ks1 ks2) in Hkeep.
  unfold cached in Hkeep.
  destruct (deref_sCache s2) as [c|] eqn:Hc; [|discriminate].
  apply getType_hit with c; auto. apply Hwf2.
Qed.

(** C5. [initialize] is idempotent: a second call right after the
    first leaves the result and the state of the first, so no second
    instance is constructed and the first is neither replaced nor lost;
    a [getType] that follows behaves as after a single call. *)
Theorem initialize_idempotent (ks : list Z) (T : TypeAttrs) (s : State) :
  bind (initialize s) (fun _ => initialize) = initialize s /\
  bind (bind (initialize s) (fun _ => initialize)) (fun _ => getType ks T) =
  bind (initialize s) (fun _ => getType ks T) /\
  match sCache s, sCacheMutex s with
  | Some _, false => initialize s = Returns tt s
  | _, _ => True
  end.
Proof.
  assert (H : bind (initialize s) (fun _ => initialize) = initialize s).
  { destruct (sCacheMutex s) eqn:Hm.
    - unfold initialize. now rewrite AutoEnterCacheMutex_held.
    - destruct (sCache s) as [a|] eqn:Ha.
      + rewrite (initialize_nonnull s a) by assumption. simpl.
        now apply initialize_nonnull with a.
      + rewrite initialize_null by assumption. simpl.
        now apply initialize_nonnull with (fresh s). }
  split; [assumption|]. split; [now rewrite H|].
  destruct (sCache s) as [a|] eqn:Ha; [|exact I].
  destruct (sCacheMutex s) eqn:Hm; [exact I|].
  now apply initialize_nonnull with a.
Qed.

(** C7. [destroy] always comes back from a state between calls, and
    leaves [sCache] null. Without an instance it changes nothing; with
    one, the instance and its pool are gone afterwards. *)
Theorem destroy_safe (s : State) :
  reachable s ->
  exists s', destroy s = Returns tt s' /\ sCache s' = None /\
    match sCache s with
    | None => s' = s
    | Some a =>
      exists c, caches s !! a = Some c /\
        caches s' = delete a (caches s) /\
        pools s' = delete (mAllocator c) (pools s)
    end.
Proof.
  intros Hreach. destruct (reachable_wf s Hreach) as [Hm [_ Hinv]].
  destruct (sCache s) as [a|] eqn:Ha.
  - destruct (Hinv a eq_refl) as (c & Hc & _).
    exists (after_destroy a c s).
    rewrite (destroy_nonnull s a c) by assumption.
    split; [reflexivity|]. split; [reflexivity|]. exists c. auto.
  - exists s. rewrite destroy_null by assumption. auto.
Qed.

(** C10. On a state reached from the start of the process in which the
    cache is initialized, [getType] returns or throws; a pointer it
    returns is not null, and the map it leaves holds no null pointer. *)
Theorem getType_not_null (ks : list Z) (T : TypeAttrs) (s : State) :
  reachable s ->
  is_Some (sCache s) ->
  match getType ks T s with
  | Returns p s' =>
    p <> nullptr /\ forall k q, cached s' k = Some q -> q <> nullptr
  | Throws s' => forall k q, cached s' k = Some q -> q <> nullptr
  | Undefined => False
  | Blocks => False
  end.
Proof.
  intros Hreach Hinit.
  pose proof (reachable_wf s Hreach) as Hwf.
  assert (Hstored : forall s', wf s' ->
            forall k q, cached s' k = Some q -> q <> nullptr).
  { intros s' Hwf' k q Hq.
    destruct (wf_cached_in_pool s' _ q Hwf' Hq) as (m & i & -> & _).
    discriminate. }
  destruct (getType_wf ks T s Hwf Hinit)
    as (s1 & Hwf1 & _ & [(p & -> & Hc) | -> ]).
  - split; [|now apply Hstored]. exact (Hstored s1 Hwf1 _ p Hc).
  - now apply Hstored.
Qed.

(** C8. Key determinism: whatever two key objects of the size of the
    union held before, constructing them from the same tuple leaves
    the same bytes in both, and every byte beyond the five components
    is zero. *)
Theorem TypeKey_deterministic (this1 this2 : list Z) (T : TypeAttrs) :
  length this1 = sizeof_TypeKey ->
  length this2 = sizeof_TypeKey ->
  TypeKey_ctor this1 T = TypeKey_ctor this2 T /\
  load_value (TypeKey_ctor this1 T) = load_value (TypeKey_ctor this2 T) /\
  forall i, (sizeof_components <= i < sizeof_TypeKey)%nat ->
    TypeKey_ctor this1 T !! i = Some 0.
Proof.
  assert (Hform : forall this, length this = sizeof_TypeKey ->
    TypeKey_ctor this T =
    [static_cast_EnumComponentType (basicType T);
     static_cast_EnumComponentType (precision T);
     static_cast_EnumComponentType (qualifier T);
     primarySize T; secondarySize T] ++ replicate (value_size - 5) 0).
  { intros this Hlen. unfold sizeof_TypeKey, sizeof_components in Hlen.
    unfold TypeKey_ctor, store_value. rewrite value_bytes_zero.
    destruct (le_lt_dec 5 value_size) as [Hge|Hlt].
    - rewrite drop_ge by lia. rewrite app_nil_r.
      replace value_size with (5 + (value_size - 5))%nat at 1 by lia.
      reflexivity.
    - replace (value_size - 5)%nat with 0%nat by lia.
      assert (Hl : length (replicate value_size 0 ++ drop value_size this)
                   = 5%nat).
      { rewrite length_app, length_replicate, length_drop. lia. }
      destruct (replicate value_size 0 ++ drop value_size this)
        as [|x0 [|x1 [|x2 [|x3 [|x4 [|x5 l]]]]]]; simpl in Hl;
        try discriminate.
      reflexivity. }
  intros H1 H2. rewrite !Hform by assumption.
  split; [reflexivity|]. split; [reflexivity|].
  intros i [Hlo Hhi]. unfold sizeof_TypeKey, sizeof_components in *.
  rewrite lookup_app_r by (simpl; lia). simpl length.
  apply lookup_replicate_2. lia.
Qed.

(** ** A thread on its own executes [getType] *)

Lemma run_thread_step (fuel : nat) (ks : list Z) (T : TypeAttrs) (pc : PC)
    (s : State) :
  is_finished pc = false ->
  run_thread (S fuel) ks T pc s =
  match thread_step ks T pc s with
  | None => None
  | Some (pc', s') => run_thread fuel ks T pc' s'
  end.
Proof.
  destruct pc; intros H; try reflexivity. discriminate.
Qed.

Lemma run_thread_finished (fuel : nat) (ks : list Z) (T : TypeAttrs)
    (o : Outcome) (s : State) :
  run_thread fuel ks T (finished o) s = Some (o, s).
Proof.
  destruct fuel; reflexivity.
Qed.

Lemma run_thread_getType (ks : list Z) (T : TypeAttrs) (s : State) :
  match getType ks T s with
  | Returns p s' => run_thread 8 ks T at_Lock s = Some (Returned p, s')
  | Throws s' => run_thread 8 ks T at_Lock s = Some (Thrown, s')
  | Undefined => exists s', run_thread 8 ks T at_Lock s = Some (Crashed, s')
  | Blocks => run_thread 8 ks T at_Lock s = None
  end.
Proof.
  unfold getType, AutoEnterCacheMutex.
  rewrite run_thread_step by reflexivity. cbn [thread_step].
  unfold CacheMutex_Lock.
  destruct (sCacheMutex s); [reflexivity|].
  cbn [bind continue].
  rewrite run_thread_step by reflexivity. cbn [thread_step].
  destruct (deref_sCache (set_mutex true s)) as [c|] eqn:Hc.
  2:{ rewrite run_thread_finished. simpl. eauto. }
  destruct (mTypes c !! load_value (TypeKey_ctor ks T)) as [p|].
  { rewrite run_thread_step by reflexivity. cbn [thread_step].
    rewrite run_thread_finished. reflexivity. }
  rewrite run_thread_step by reflexivity. cbn [thread_step]. rewrite Hc.
  unfold TScopedAllocator_ctor.
  rewrite run_thread_step by reflexivity. cbn [thread_step].
  destruct (new_TType T _) as [ty s1| s1 | |] eqn:Hnew;
    cbn [bind continue at_scope_exit].
  2:{ do 2 (rewrite run_thread_step by reflexivity; cbn [thread_step]).
      rewrite run_thread_finished. reflexivity. }
  2:{ rewrite run_thread_finished. eauto. }
  2:{ unfold new_TType in Hnew. repeat case_match; discriminate. }
  rewrite run_thread_step by reflexivity. cbn [thread_step].
  destruct (TType_realize ty s1) as [[] s2| s2 | |] eqn:Hreal;
    cbn [bind continue at_scope_exit].
  2:{ do 2 (rewrite run_thread_step by reflexivity; cbn [thread_step]).
      rewrite run_thread_finished. reflexivity. }
  2:{ rewrite run_thread_finished. eauto. }
  2:{ unfold TType_realize in Hreal. repeat case_match; discriminate. }
  rewrite run_thread_step by reflexivity. cbn [thread_step].
  destruct (mTypes_insert (TypeKey_ctor ks T) ty s2) as [[] s3| s3 | |] eqn:Hins;
    cbn [bind continue at_scope_exit].
  - do 2 (rewrite run_thread_step by reflexivity; cbn [thread_step]).
    rewrite run_thread_finished. reflexivity.
  - unfold mTypes_insert in Hins. repeat case_match; discriminate.
  - rewrite run_thread_finished. eauto.
  - unfold mTypes_insert in Hins. repeat case_match; discriminate.
Qed.


(** The trace of a thread ends where its run ends. *)
Lemma thread_trace_last (fuel : nat) (ks : list Z) (T : TypeAttrs) (pc : PC)
    (s s' : State) (o : Outcome) :
  run_thread fuel ks T pc s = Some (o, s') ->
  last (thread_trace fuel ks T pc s) = Some (finished o, s').
Proof.
  revert pc s. induction fuel as [|fuel IH]; intros pc s H.
  - destruct pc; try discriminate. now injection H as <- <-.
  - destruct (is_finished pc) eqn:Hpc.
    + destruct pc; try discriminate. rewrite run_thread_finished in H.
      now injection H as <- <-.
    + rewrite run_thread_step in H by assumption. cbn [thread_trace].
      destruct (thread_step ks T pc s) as [[pc' s1]|]; [|discriminate].
      specialize (IH pc' s1 H).
      destruct (thread_trace fuel ks T pc' s1) as [|x l]; [discriminate|].
      now rewrite last_cons, IH.
Qed.

(** ** Threads: every step brings a call nearer to its end *)

Lemma thread_step_remaining (ks : list Z) (T : TypeAttrs) (pc pc' : PC)
    (s s' : State) :
  thread_step ks T pc s = Some (pc', s') ->
  (remaining pc' < remaining pc)%nat.
Proof.
  destruct pc; simpl; unfold continue, CacheMutex_Lock, TScopedAllocator_ctor;
    intros H; repeat case_match; simplify_eq; simpl; lia.
Qed.

Lemma sum_list_insert_lt {A} (f : A -> nat) (l : list A) (i : nat) (x y : A) :
  l !! i = Some y -> (f x < f y)%nat ->
  (sum_list (map f (<[i := x]> l)) < sum_list (map f l))%nat.
Proof.
  revert i. induction l as [|z l IH]; intros [|i] Hi Hlt; simpl in *;
    try discriminate.
  - injection Hi as ->. lia.
  - specialize (IH i Hi Hlt). lia.
Qed.

Lemma step_weight (sys sys' : System) :
  step sys sys' -> (weight sys' < weight sys)%nat.
Proof.
  intros [sys0 i th pc' s' Hth Hstep]. unfold weight. simpl.
  apply sum_list_insert_lt with th; [assumption|]. simpl.
  now apply thread_step_remaining in Hstep.
Qed.

Lemma forallb_false_lookup {A} (f : A -> bool) (l : list A) :
  forallb f l = false -> exists j x, l !! j = Some x /\ f x = false.
Proof.
  induction l as [|x l IH]; simpl; [discriminate|].
  destruct (f x) eqn:Hx; simpl.
  - intros H. destruct (IH H) as (j & y & Hj & Hy). now exists (S j), y.
  - intros _. now exists 0%nat, x.
Qed.

Lemma lookup_insert_cases {A} (l : list A) (i j : nat) (x y : A) :
  <[i := x]> l !! j = Some y ->
  (j = i /\ y = x) \/ (j <> i /\ l !! j = Some y).
Proof.
  intros H. destruct (decide (j = i)) as [->|Hne].
  - left. split; [reflexivity|].
    assert (Hlt : (i < length l)%nat).
    { apply lookup_lt_Some in H. now rewrite length_insert in H. }
    rewrite list_lookup_insert_eq in H by assumption. congruence.
  - right. split; [assumption|].
    now rewrite list_lookup_insert_ne in H by congruence.
Qed.

Lemma step_of_step (i : nat) (sys sys' : System) :
  step_of i sys = Some sys' -> step sys sys'.
Proof.
  unfold step_of. intros H.
  destruct (threads sys !! i) as [th|] eqn:Hth; [|discriminate].
  destruct (thread_step _ _ _ _) as [[pc' s']|] eqn:Hstep; [|discriminate].
  injection H as <-. now apply (step_thread sys i th pc' s').
Qed.

Lemma schedule_steps (order : list nat) (sys sys' : System) :
  schedule order sys = Some sys' -> rtc step sys sys'.
Proof.
  revert sys. induction order as [|i order IH]; simpl; intros sys H.
  - injection H as <-. apply rtc_refl.
  - destruct (step_of i sys) as [sys1|] eqn:Hs; [|discriminate].
    apply rtc_l with sys1; [now apply step_of_step with i|now apply IH].
Qed.

(** ** Threads: the mutex serializes the calls *)

Section Concurrent.

Variable T : TypeAttrs.
Variable s0 : State.
Variable a : nat.
Variable c : TCache.
Variable objs : list TType.
Variable k : Z.

Hypothesis mutex_free : sCacheMutex s0 = false.
Hypothesis singleton : sCache s0 = Some a.
Hypothesis instance : caches s0 !! a = Some c.
Hypothesis pool : pools s0 !! mAllocator c = Some objs.
Hypothesis not_cached : mTypes c !! k = None.
Hypothesis key_of_T : forall ks, load_value (TypeKey_ctor ks T) = k.
Hypothesis new_completes : forall st, new_TType_throws T st = false.
Hypothesis realize_completes : forall q st, realize_throws q st = false.

Local Abbreviation p := (in_pool (mAllocator c) (length objs)).
Local Abbreviation published_state := (after_miss k T a c objs s0).

Lemma in_section_mutex (ph : bool) (pc : PC) (st : State) :
  in_section k T a c objs s0 ph pc st -> sCacheMutex st = true.
Proof.
  destruct pc; simpl; intros H; try contradiction;
    repeat match goal with H : _ /\ _ |- _ => destruct H end; subst;
    reflexivity.
Qed.

(** A step of the thread in the critical section: it stays in the
    section, at the position and in the state the invariant names, or
    it leaves the section and returns the published pointer. *)
Lemma in_section_step (ks : list Z) (ph : bool) (pc : PC) (st : State) :
  in_section k T a c objs s0 ph pc st ->
  exists pc' st', thread_step ks T pc st = Some (pc', st') /\
    ((exists ph', (ph = true -> ph' = true) /\
        in_section k T a c objs s0 ph' pc' st') \/
     (ph = true /\ pc' = finished (Returned p) /\ st' = published_state)).
Proof.
  destruct pc as [| | |sc|sc ty|sc ty|sc o|o|o]; simpl;
    intros H; try contradiction.
  - (* find *)
    subst st. rewrite key_of_T. destruct ph; simpl.
    + unfold deref_sCache. simpl. rewrite singleton, lookup_insert_eq. simpl.
      rewrite lookup_insert_eq.
      do 2 eexists. split; [reflexivity|]. left. exists true. simpl. auto.
    + unfold deref_sCache. simpl. rewrite singleton, instance, not_cached.
      do 2 eexists. split; [reflexivity|]. left. exists false. simpl. auto.
  - (* scopedAllocator *)
    destruct H as [-> ->].
    unfold deref_sCache. simpl. rewrite singleton, instance.
    do 2 eexists. split; [reflexivity|]. left. exists false. simpl. auto.
  - (* new *)
    destruct H as (-> & -> & ->).
    unfold new_TType. simpl. rewrite pool, new_completes. simpl.
    do 2 eexists. split; [reflexivity|]. left. exists false. simpl. auto.
  - (* realize *)
    destruct H as (-> & -> & -> & ->).
    unfold TType_realize. simpl. rewrite lookup_insert_eq.
    rewrite lookup_app_r, Nat.sub_diag by lia. simpl.
    rewrite realize_completes. simpl.
    do 2 eexists. split; [reflexivity|]. left. exists false. simpl.
    split; [auto|]. do 3 (split; [reflexivity|]).
    rewrite insert_insert_eq.
    rewrite insert_app_r_alt, Nat.sub_diag by lia. reflexivity.
  - (* insert *)
    destruct H as (-> & -> & -> & ->).
    unfold mTypes_insert. simpl. rewrite singleton, instance. simpl.
    unfold map_insert. rewrite key_of_T, not_cached.
    do 2 eexists. split; [reflexivity|]. left. exists true. simpl. auto.
  - (* restore *)
    destruct H as (-> & -> & -> & ->).
    do 2 eexists. split; [reflexivity|]. left. exists true. simpl. auto.
  - (* Unlock *)
    destruct H as (-> & -> & ->).
    do 2 eexists. split; [reflexivity|]. right.
    repeat split. unfold CacheMutex_Unlock, set_mutex. simpl.
    unfold after_miss, set_caches, set_pools. simpl. now rewrite mutex_free.
Qed.

Lemma concurrent_inv_start (kss : list (list Z)) :
  concurrent_inv k T a c objs s0 (length kss)
                 (mkSystem s0 (start_threads kss T)).
Proof.
  assert (Hlook : forall j th, start_threads kss T !! j = Some th ->
            thread_attrs th = T /\ thread_pc th = at_Lock).
  { unfold start_threads. change (@map) with (@fmap list _).
    intros j th Hj. rewrite list_lookup_fmap in Hj.
    destruct (kss !! j); simpl in Hj; simplify_eq. auto. }
  split; [apply length_map|]. exists false. simpl. split.
  - intros j th Hj. destruct (Hlook j th Hj) as [-> ->]. auto.
  - left. split; [reflexivity|].
    intros j th Hj. destruct (Hlook j th Hj) as [_ ->]. reflexivity.
Qed.

Lemma concurrent_inv_step (n : nat) (sys sys' : System) :
  concurrent_inv k T a c objs s0 n sys -> step sys sys' ->
  concurrent_inv k T a c objs s0 n sys'.
Proof.
  intros Hinv Hst. destruct Hst as [sys0 i th pc' s' Hth Hstep].
  destruct Hinv as [Hlen (ph & Hall & Hsec)].
  split; [simpl; now rewrite length_insert|].
  destruct (Hall i th Hth) as [HT Hfin].
  rewrite HT in Hstep.
  destruct Hsec as [[Hsh Hidle] | (h & thh & Hh & Hin & Hothers)].
  - (* the mutex is free: the thread takes it *)
    pose proof (Hidle i th Hth) as Hi.
    destruct (thread_pc th) eqn:Hpc; try discriminate.
    simpl in Hstep. unfold CacheMutex_Lock in Hstep.
    assert (Hm : sCacheMutex (shared sys0) = false).
    { rewrite Hsh. destruct ph; [simpl|]; apply mutex_free. }
    rewrite Hm in Hstep. simpl in Hstep. injection Hstep as <- <-.
    exists ph. simpl. split.
    + intros j th' Hj.
      destruct (lookup_insert_cases _ _ _ _ _ Hj) as [[-> ->]|[Hne Hj']].
      * simpl. auto.
      * apply (Hall j th' Hj').
    + right. exists i. eexists. split.
      * apply list_lookup_insert_eq. now apply lookup_lt_Some in Hth.
      * simpl. split; [now rewrite Hsh|].
        intros j th' Hne Hj.
        rewrite list_lookup_insert_ne in Hj by congruence.
        now apply (Hidle j th').
  - (* the mutex is held: only its holder can move *)
    pose proof (in_section_mutex _ _ _ Hin) as Hm.
    destruct (decide (i = h)) as [->|Hne].
    2:{ specialize (Hothers i th Hne Hth).
        destruct (thread_pc th); try discriminate.
        simpl in Hstep. unfold CacheMutex_Lock in Hstep.
        rewrite Hm in Hstep. discriminate. }
    rewrite Hth in Hh. injection Hh as <-.
    destruct (in_section_step (thread_key_storage th) _ _ _ Hin)
      as (pc1 & st1 & Hstep1 & Hnext).
    rewrite Hstep1 in Hstep. injection Hstep as <- <-.
    destruct Hnext as [(ph' & Hmono & Hin') | (-> & -> & ->)].
    + exists ph'. simpl. split.
      * intros j th' Hj.
        destruct (lookup_insert_cases _ _ _ _ _ Hj) as [[-> ->]|[Hne Hj']].
        -- simpl. split; [assumption|].
           destruct pc1; try exact I. contradiction.
        -- destruct (Hall j th' Hj') as [HT' Hfin'].
           split; [assumption|].
           destruct (thread_pc th'); try exact I.
           destruct Hfin' as [Hph Ho]. auto.
      * right. exists h. eexists. split.
        -- apply list_lookup_insert_eq. now apply lookup_lt_Some in Hth.
        -- simpl. split; [assumption|].
           intros j th' Hne Hj.
           rewrite list_lookup_insert_ne in Hj by congruence.
           now apply (Hothers j th').
    + exists true. simpl. split.
      * intros j th' Hj.
        destruct (lookup_insert_cases _ _ _ _ _ Hj) as [[-> ->]|[Hne Hj']].
        -- simpl. auto.
        -- apply (Hall j th' Hj').
      * left. split; [reflexivity|].
        intros j th' Hj.
        destruct (lookup_insert_cases _ _ _ _ _ Hj) as [[-> ->]|[Hne Hj']].
        -- reflexivity.
        -- now apply (Hothers j th').
Qed.

Lemma concurrent_inv_steps (n : nat) (sys sys' : System) :
  concurrent_inv k T a c objs s0 n sys -> rtc step sys sys' ->
  concurrent_inv k T a c objs s0 n sys'.
Proof.
  intros Hinv Hsteps. induction Hsteps as [|x y z Hxy _ IH]; [assumption|].
  apply IH. now apply concurrent_inv_step with x.
Qed.

(** When every thread has finished, and there is one at least, the
    shared state is the one a single miss leaves, and every thread has
    returned the published pointer. *)
Lemma concurrent_inv_finished (n : nat) (sys : System) :
  concurrent_inv k T a c objs s0 n sys -> n <> 0%nat ->
  all_finished sys = true ->
  shared sys = published_state /\
  Forall (fun th => thread_pc th = finished (Returned p)) (threads sys).
Proof.
  intros [Hlen (ph & Hall & Hsec)] Hn Hfin.
  unfold all_finished in Hfin. rewrite forallb_forall in Hfin.
  assert (Hdone : forall j th, threads sys !! j = Some th ->
            ph = true /\ thread_pc th = finished (Returned p)).
  { intros j th Hj. destruct (Hall j th Hj) as [_ Ho].
    assert (Hf : is_finished (thread_pc th) = true).
    { apply Hfin. apply list_elem_of_In. now apply list_elem_of_lookup_2 with j. }
    destruct (thread_pc th); try discriminate.
    destruct Ho as [-> ->]. auto. }
  destruct (threads sys) as [|th0 ths] eqn:Hths; [simpl in Hlen; lia|].
  destruct (Hdone 0%nat th0 eq_refl) as [-> _].
  split.
  - destruct Hsec as [[Hsh _] | (h & thh & Hh & Hin & _)]; [assumption|].
    destruct (Hdone h thh Hh) as [_ Hpc]. rewrite Hpc in Hin. contradiction.
  - apply Forall_lookup. intros j th Hj. now apply (Hdone j th).
Qed.

(** While some thread has not finished, some thread can take a step. *)
Lemma concurrent_inv_progress (n : nat) (sys : System) :
  concurrent_inv k T a c objs s0 n sys ->
  all_finished sys = false ->
  exists sys', step sys sys'.
Proof.
  intros [Hlen (ph & Hall & Hsec)] Hfin.
  destruct Hsec as [[Hsh Hidle] | (h & thh & Hh & Hin & _)].
  - unfold all_finished in Hfin.
    apply forallb_false_lookup in Hfin as (j & th & Hj & Hnf).
    specialize (Hidle j th Hj).
    destruct (thread_pc th) eqn:Hpc; try discriminate.
    eexists. apply (step_thread sys j th at_find (set_mutex true (shared sys)));
      [assumption|].
    rewrite Hpc. simpl. unfold CacheMutex_Lock.
    rewrite Hsh. destruct ph; simpl; now rewrite mutex_free.
  - destruct (Hall h thh Hh) as [HT _].
    destruct (in_section_step (thread_key_storage thh) _ _ _ Hin)
      as (pc1 & st1 & Hstep1 & _).
    eexists. apply (step_thread sys h thh pc1 st1); [assumption|].
    now rewrite HT.
Qed.

(** At most one thread is inside the critical section. *)
Lemma concurrent_inv_exclusion (n : nat) (sys : System) (i j : nat)
    (thi thj : Thread) :
  concurrent_inv k T a c objs s0 n sys ->
  threads sys !! i = Some thi -> threads sys !! j = Some thj ->
  is_idle (thread_pc thi) = false -> is_idle (thread_pc thj) = false ->
  i = j.
Proof.
  intros [_ (ph & _ & Hsec)] Hi Hj Hbi Hbj.
  destruct Hsec as [[_ Hidle] | (h & thh & _ & _ & Hothers)].
  - rewrite (Hidle i thi Hi) in Hbi. discriminate.
  - destruct (decide (i = h)) as [->|Hih].
    + destruct (decide (j = h)) as [->|Hjh]; [reflexivity|].
      rewrite (Hothers j thj Hjh Hj) in Hbj. discriminate.
    + rewrite (Hothers i thi Hih Hi) in Hbi. discriminate.
Qed.

End Concurrent.

Lemma calls_wait_for_mutex (ks : list Z) (T : TypeAttrs) (s : State) :
  sCacheMutex s = true ->
  initialize s = Blocks /\ destroy s = Blocks /\ getType ks T s = Blocks.
Proof.
  intros Hm. unfold initialize, destroy, getType.
  now rewrite !AutoEnterCacheMutex_held.
Qed.

(** C4. Threads that call [getType] concurrently for a tuple [T] that
    is not cached, when the construction of a descriptor does not
    throw: in every interleaving of their statements, once all calls
    have ended they have all returned the same pointer, the one a single
    call would have returned, and the state is the one that call would
    have left, with one descriptor more in the pool of the cache than
    before. Until then some thread can take a step, and every step
    brings the calls nearer to their end. The mutex serializes the
    calls: at most one thread is past [Lock] and before the end of
    [Unlock], and a call of [initialize], [destroy] or [getType] that
    finds the mutex held waits. *)
Theorem getType_concurrent (kss : list (list Z)) (T : TypeAttrs) (s : State)
    (sys : System) :
  reachable s ->
  is_Some (sCache s) ->
  (forall ks, cached s (load_value (TypeKey_ctor ks T)) = None) ->
  (forall st, new_TType_throws T st = false) ->
  (forall q st, realize_throws q st = false) ->
  kss <> [] ->
  rtc step (mkSystem s (start_threads kss T)) sys ->
  (all_finished sys = true ->
   exists p s1,
     (forall ks, getType ks T s = Returns p s1) /\
     shared sys = s1 /\
     length (threads sys) = length kss /\
     Forall (fun th => thread_pc th = finished (Returned p)) (threads sys) /\
     exists m objs,
       p = in_pool m (length objs) /\
       pools s !! m = Some objs /\
       pools s1 = <[m := objs ++ [mkTType T true]]> (pools s)) /\
  (all_finished sys = false -> exists sys', step sys sys') /\
  (forall sys', step sys sys' -> (weight sys' < weight sys)%nat) /\
  (forall i j thi thj,
     threads sys !! i = Some thi -> threads sys !! j = Some thj ->
     is_idle (thread_pc thi) = false -> is_idle (thread_pc thj) = false ->
     i = j) /\
  (forall ks st, sCacheMutex st = true ->
     initialize st = Blocks /\ destroy st = Blocks /\
     getType ks T st = Blocks).
Proof.
  intros Hreach [a Ha] Hmiss Hnew Hreal Hne Hsteps.
  destruct (reachable_wf s Hreach) as [Hm [_ Hinv]].
  destruct (Hinv a Ha) as (c & Hc & (objs & Hpool & _) & _).
  set (k := load_value (TypeKey_ctor [] T)).
  assert (Hk : forall ks, load_value (TypeKey_ctor ks T) = k)
    by (intros ks; apply load_value_ctor_indep).
  assert (Hnc : mTypes c !! k = None).
  { specialize (Hmiss []). unfold cached, deref_sCache in Hmiss.
    now rewrite Ha, Hc in Hmiss. }
  assert (Hci : concurrent_inv k T a c objs s (length kss) sys).
  { eapply concurrent_inv_steps; eauto. apply concurrent_inv_start. }
  split; [|split; [|split; [|split]]].
  - intros Hfin.
    destruct (concurrent_inv_finished T s a c objs k (length kss) sys Hci)
      as [Hsh Hall]; [destruct kss; simpl; congruence|assumption|].
    exists (in_pool (mAllocator c) (length objs)), (after_miss k T a c objs s).
    split.
    { intros ks. rewrite (getType_miss ks T s a c objs); auto.
      - now rewrite Hnew, Hreal, Hk.
      - now rewrite Hk. }
    split; [assumption|]. split; [apply Hci|]. split; [assumption|].
    exists (mAllocator c), objs. auto.
  - intros Hfin. eapply concurrent_inv_progress; eauto.
  - apply step_weight.
  - intros i j thi thj. now apply concurrent_inv_exclusion with (1 := Hci).
  - intros ks st. apply calls_wait_for_mutex.
Qed.

(** C3. On the miss path of [getType] the constructor of the
    descriptor is reached; at every position where [scopedAllocator] is
    alive, so while the descriptor is allocated, constructed, realized
    and inserted, the ambient allocator is the pool of the cache; and
    whether [getType] returns or leaves by an exception of the
    construction, the ambient allocator is afterwards the one it was
    before the call. A descriptor that is returned lies in the pool of
    the cache. *)
Theorem getType_scoped_redirect (ks : list Z) (T : TypeAttrs) (s : State)
    (a : nat) (c : TCache) :
  reachable s ->
  sCache s = Some a -> caches s !! a = Some c ->
  mTypes c !! load_value (TypeKey_ctor ks T) = None ->
  (exists sc st, (at_new sc, st) ∈ thread_trace 8 ks T at_Lock s) /\
  (forall pc st, (pc, st) ∈ thread_trace 8 ks T at_Lock s ->
     scopedAllocator_alive pc = true ->
     GetGlobalPoolAllocator st = Some (mAllocator c)) /\
  match getType ks T s with
  | Returns p s' =>
    GetGlobalPoolAllocator s' = GetGlobalPoolAllocator s /\
    exists i, p = in_pool (mAllocator c) i
  | Throws s' => GetGlobalPoolAllocator s' = GetGlobalPoolAllocator s
  | Undefined => False
  | Blocks => False
  end.
Proof.
  intros Hreach Ha Hc Hmiss.
  destruct (reachable_wf s Hreach) as [Hm [_ Hinv]].
  destruct (Hinv a Ha) as (c' & Hc' & (objs & Hpool & _) & _).
  rewrite Hc in Hc'. injection Hc' as <-.
  assert (Htrace : exists rest,
    thread_trace 8 ks T at_Lock s =
    (at_Lock, s) :: (at_find, set_mutex true s) ::
    (at_scopedAllocator, set_mutex true s) ::
    (at_new (mkTScopedAllocator (globalPoolAllocator s)), while_new c s) ::
    rest /\
    forall pc st, (pc, st) ∈ rest -> scopedAllocator_alive pc = true ->
      GetGlobalPoolAllocator st = Some (mAllocator c)).
  { cbn [thread_trace thread_step]. unfold CacheMutex_Lock. rewrite Hm.
    cbn [continue thread_trace thread_step].
    unfold deref_sCache. cbn [sCache set_mutex caches].
    rewrite Ha, Hc, Hmiss.
    cbn [thread_trace thread_step]. unfold deref_sCache.
    cbn [sCache set_mutex caches]. rewrite Ha, Hc.
    unfold TScopedAllocator_ctor. fold (while_new c s).
    eexists. split; [reflexivity|].
    intros pc st Hin Halive.
    cbn [thread_trace thread_step] in Hin. unfold new_TType in Hin.
    cbn [GetGlobalPoolAllocator globalPoolAllocator while_new
         SetGlobalPoolAllocator pools set_mutex] in Hin.
    rewrite Hpool in Hin.
    destruct (new_TType_throws T (while_new c s)).
    { cbn [continue thread_trace thread_step] in Hin.
      rewrite !elem_of_cons, elem_of_nil in Hin.
      destruct Hin as [Hin|[Hin|[Hin|[]]]]; injection Hin as -> _; discriminate. }
    cbn [continue thread_trace thread_step] in Hin.
    apply elem_of_cons in Hin as [Hin|Hin].
    { now injection Hin as -> ->. }
    unfold TType_realize in Hin. cbn [pools set_pools] in Hin.
    rewrite lookup_insert_eq in Hin.
    rewrite lookup_app_r, Nat.sub_diag in Hin by lia.
    cbn [lookup list_lookup] in Hin.
    destruct (realize_throws _ _).
    { cbn [continue thread_trace thread_step] in Hin.
      rewrite !elem_of_cons, elem_of_nil in Hin.
      destruct Hin as [Hin|[Hin|[Hin|[]]]]; injection Hin as -> _; discriminate. }
    cbn [continue thread_trace thread_step] in Hin.
    apply elem_of_cons in Hin as [Hin|Hin].
    { now injection Hin as -> ->. }
    unfold mTypes_insert in Hin. cbn [sCache caches set_pools] in Hin.
    change (sCache (while_new c s)) with (sCache s) in Hin.
    change (caches (while_new c s)) with (caches s) in Hin.
    rewrite Ha, Hc in Hin.
    cbn [continue thread_trace thread_step] in Hin.
    rewrite !elem_of_cons, elem_of_nil in Hin.
    destruct Hin as [Hin|[Hin|[Hin|[]]]]; injection Hin as -> _; discriminate. }
  destruct Htrace as (rest & Htr & Hrest).
  split; [|split].
  - do 2 eexists. rewrite Htr. rewrite !elem_of_cons. eauto 6.
  - intros pc st Hin Halive. rewrite Htr in Hin.
    rewrite !elem_of_cons in Hin.
    destruct Hin as [Hin|[Hin|[Hin|[Hin|Hin]]]];
      try (injection Hin as -> ->; (discriminate || reflexivity)).
    now apply (Hrest pc st).
  - rewrite (getType_miss ks T s a c objs) by assumption.
    destruct (new_TType_throws T (while_new c s)); [reflexivity|].
    destruct (realize_throws _ _); [reflexivity|].
    split; [reflexivity|eauto].
Qed.

(** * Further properties of the code *)

(** ** The value of a key *)

Lemma le_decode_replicate_zero (n : nat) : le_decode (replicate n 0) = 0.
Proof.
  induction n as [|n IH]; simpl; [reflexivity|]. rewrite IH. lia.
Qed.

Lemma le_decode_app (l1 l2 : list Z) :
  le_decode (l1 ++ l2) =
  le_decode l1 + 256 ^ Z.of_nat (length l1) * le_decode l2.
Proof.
  induction l1 as [|x l1 IH]; simpl app; simpl length.
  - simpl. lia.
  - simpl le_decode. rewrite IH, Nat2Z.inj_succ, Z.pow_succ_r by lia. lia.
Qed.

(** X1. The integer a key holds, when the packed record fits it: on a
    little-endian target the five components are its five low bytes, in
    the order of their declaration, and the bytes above are zero; on a
    big-endian target they are its five high bytes. *)
Theorem TypeKey_value_layout (this : list Z) (T : TypeAttrs) :
  TypeKey_static_assert ->
  load_value (TypeKey_ctor this T) =
  let b := static_cast_EnumComponentType (basicType T) in
  let p := static_cast_EnumComponentType (precision T) in
  let q := static_cast_EnumComponentType (qualifier T) in
  if big_endian
  then (b * 256 ^ 4 + p * 256 ^ 3 + q * 256 ^ 2 + primarySize T * 256 +
        secondarySize T) * 256 ^ Z.of_nat (value_size - 5)
  else b + p * 256 + q * 256 ^ 2 + primarySize T * 256 ^ 3 +
       secondarySize T * 256 ^ 4.
Proof.
  intros Hsz. unfold load_value.
  rewrite TypeKey_ctor_value_bytes_5 by assumption.
  destruct big_endian.
  - rewrite reverse_app, reverse_replicate, le_decode_app, length_replicate.
    unfold reverse. simpl rev_append. simpl le_decode.
    rewrite le_decode_replicate_zero.
    generalize (256 ^ Z.of_nat (value_size - 5)). intros w.
    change (256 ^ 4) with 4294967296. change (256 ^ 3) with 16777216.
    change (256 ^ 2) with 65536. ring.
  - rewrite le_decode_app, le_decode_replicate_zero. simpl le_decode.
    simpl length. change (256 ^ 4) with 4294967296.
    change (256 ^ 3) with 16777216. change (256 ^ 2) with 65536. ring.
Qed.

(** ** The ways a call of [getType] can end *)

Lemma key_of_eq (ks : list Z) (T : TypeAttrs) :
  load_value (TypeKey_ctor ks T) = key_of T.
Proof. apply load_value_ctor_indep. Qed.

Lemma getType_cases (ks : list Z) (T : TypeAttrs) (s : State) (a : nat)
    (c : TCache) (objs : list TType) :
  sCacheMutex s = false ->
  sCache s = Some a -> caches s !! a = Some c ->
  pools s !! mAllocator c = Some objs ->
  (exists p, mTypes c !! key_of T = Some p /\ getType ks T s = Returns p s) \/
  (mTypes c !! key_of T = None /\
   (getType ks T s = Throws s \/
    getType ks T s = Throws (after_failed_realize T c objs s) \/
    getType ks T s = Returns (in_pool (mAllocator c) (length objs))
                             (after_miss (key_of T) T a c objs s))).
Proof.
  intros Hm Ha Hc Hpool.
  destruct (mTypes c !! key_of T) as [p|] eqn:Hk.
  - left. exists p. split; [reflexivity|].
    apply getType_hit with c; auto.
    + unfold deref_sCache. now rewrite Ha.
    + now rewrite key_of_eq.
  - right. split; [reflexivity|].
    rewrite (getType_miss ks T s a c objs), key_of_eq; auto.
    + destruct (new_TType_throws T _); [now left|].
      destruct (realize_throws _ _); auto.
    + now rewrite key_of_eq.
Qed.

(** ** What the cache owns *)

Lemma owned_inv_cache (P0 : gmap nat (list TType)) (g0 : option nat)
    (s : State) (a : nat) :
  owned_inv P0 g0 s -> sCache s = Some a ->
  exists c objs,
    caches s = {[a := c]} /\ caches s !! a = Some c /\
    P0 !! mAllocator c = None /\
    pools s = <[mAllocator c := objs]> P0 /\
    pools s !! mAllocator c = Some objs /\
    forall k p, mTypes c !! k = Some p ->
      exists i t, p = in_pool (mAllocator c) i /\ objs !! i = Some t /\
        realized t = true /\ key_of (type_attrs t) = k.
Proof.
  intros [_ H] Ha. rewrite Ha in H.
  destruct H as (c & objs & Hc & HP & Hp & Hent).
  exists c, objs. repeat split; auto.
  - rewrite Hc. apply lookup_singleton_eq.
  - rewrite Hp. apply lookup_insert_eq.
Qed.

Lemma owned_inv_after_miss (P0 : gmap nat (list TType)) (g0 : option nat)
    (T : TypeAttrs) (s : State) (a : nat) (c : TCache) (objs : list TType) :
  owned_inv P0 g0 s -> sCache s = Some a -> caches s !! a = Some c ->
  pools s !! mAllocator c = Some objs ->
  owned_inv P0 g0 (after_miss (key_of T) T a c objs s).
Proof.
  intros Hown Ha Hc Hpool.
  destruct (owned_inv_cache _ _ _ _ Hown Ha)
    as (c' & objs' & Hcs & Hc' & HP & Hp & Hpool' & Hent).
  rewrite Hc in Hc'. injection Hc' as <-.
  rewrite Hpool in Hpool'. injection Hpool' as <-.
  split; [apply Hown|]. simpl sCache. rewrite Ha.
  eexists. exists (objs ++ [mkTType T true]). simpl.
  split; [rewrite Hcs; apply insert_singleton_eq|].
  split; [assumption|].
  split; [rewrite Hp; apply insert_insert_eq|].
  intros k p Hk. simpl in Hk. destruct (decide (key_of T = k)) as [<-|Hne].
  - rewrite lookup_insert_eq in Hk. injection Hk as <-.
    exists (length objs), (mkTType T true). split; [reflexivity|].
    split; [|auto]. rewrite lookup_app_r, Nat.sub_diag by lia. reflexivity.
  - rewrite lookup_insert_ne in Hk by assumption.
    destruct (Hent k p Hk) as (i & t & -> & Hi & Hr & Hkt).
    exists i, t. split; [reflexivity|]. split; [|auto].
    now apply lookup_app_l_Some.
Qed.

Lemma owned_inv_after_failed_realize (P0 : gmap nat (list TType))
    (g0 : option nat) (T : TypeAttrs) (s : State) (a : nat) (c : TCache)
    (objs : list TType) :
  owned_inv P0 g0 s -> sCache s = Some a -> caches s !! a = Some c ->
  pools s !! mAllocator c = Some objs ->
  owned_inv P0 g0 (after_failed_realize T c objs s).
Proof.
  intros Hown Ha Hc Hpool.
  destruct (owned_inv_cache _ _ _ _ Hown Ha)
    as (c' & objs' & Hcs & Hc' & HP & Hp & Hpool' & Hent).
  rewrite Hc in Hc'. injection Hc' as <-.
  rewrite Hpool in Hpool'. injection Hpool' as <-.
  split; [apply Hown|]. simpl sCache. rewrite Ha.
  exists c, (objs ++ [mkTType T false]). simpl.
  split; [assumption|]. split; [assumption|].
  split; [rewrite Hp; apply insert_insert_eq|].
  intros k p Hk.
  destruct (Hent k p Hk) as (i & t & -> & Hi & Hr & Hkt).
  exists i, t. split; [reflexivity|]. split; [|auto].
  now apply lookup_app_l_Some.
Qed.

Lemma call_owned_inv (P0 : gmap nat (list TType)) (g0 : option nat)
    (c : Call) (s s' : State) :
  wf s -> owned_inv P0 g0 s -> call c s = Some s' -> owned_inv P0 g0 s'.
Proof.
  intros [Hm [Hfresh Hinv]] Hown Hcall.
  destruct c as [| |ks T]; simpl in Hcall.
  - destruct (sCache s) as [a|] eqn:Ha.
    + rewrite (initialize_nonnull s a) in Hcall by assumption.
      now injection Hcall as <-.
    + rewrite initialize_null in Hcall by assumption.
      injection Hcall as <-.
      destruct Hown as [Hg H]. rewrite Ha in H. destruct H as [Hcs Hp].
      split; [assumption|]. simpl.
      exists (mkTCache ∅ (fresh s)), []. simpl.
      split; [rewrite Hcs; apply insert_empty|].
      split.
      { destruct (P0 !! fresh s) eqn:HP; [|reflexivity].
        assert (fresh s < fresh s)%nat; [|lia].
        apply Hfresh. rewrite Hp, HP. eauto. }
      split; [now rewrite Hp|].
      intros k p Hk. now rewrite lookup_empty in Hk.
  - destruct (sCache s) as [a|] eqn:Ha.
    + destruct (owned_inv_cache _ _ _ _ Hown Ha)
        as (c & objs & Hcs & Hc & HP & Hp & _ & _).
      rewrite (destroy_nonnull s a c) in Hcall by assumption.
      injection Hcall as <-. split; [apply Hown|]. simpl.
      split; [rewrite Hcs; apply delete_singleton_eq|].
      rewrite Hp. now apply delete_insert_id.
    + rewrite destroy_null in Hcall by assumption.
      now injection Hcall as <-.
  - destruct (sCache s) as [a|] eqn:Ha.
    + destruct (owned_inv_cache _ _ _ _ Hown Ha)
        as (c & objs & _ & Hc & _ & _ & Hpool & _).
      destruct (getType_cases ks T s a c objs Hm Ha Hc Hpool)
        as [(p & _ & Hr) | (_ & [Hr | [Hr | Hr]])];
        rewrite Hr in Hcall; injection Hcall as <-; auto.
      * now apply owned_inv_after_failed_realize with a.
      * now apply owned_inv_after_miss.
    + rewrite getType_null in Hcall by assumption. discriminate.
Qed.

Lemma run_owned_inv (P0 : gmap nat (list TType)) (g0 : option nat)
    (cs : list Call) (s s' : State) :
  wf s -> owned_inv P0 g0 s -> run cs s = Some s' -> owned_inv P0 g0 s'.
Proof.
  revert s. induction cs as [|c cs IH]; simpl; intros s Hwf Hown Hrun.
  - congruence.
  - destruct (call c s) as [s1|] eqn:Hc; [|discriminate].
    apply (IH s1); [now apply call_wf with c s| |assumption].
    now apply call_owned_inv with c s.
Qed.

Lemma process_start_owned_inv (s0 : State) :
  process_start s0 -> owned_inv (pools s0) (globalPoolAllocator s0) s0.
Proof.
  intros (Hn & Hc & _). split; [reflexivity|]. now rewrite Hn.
Qed.

Lemma reachable_owned_inv (s : State) :
  reachable s -> exists P0 g0, owned_inv P0 g0 s.
Proof.
  intros (s0 & cs & Hstart & Hrun).
  exists (pools s0), (globalPoolAllocator s0).
  apply run_owned_inv with cs s0; auto using process_start_wf,
    process_start_owned_inv.
Qed.

Lemma TType_at_grow (s s' : State) (m : nat) (objs : list TType) (x : TType) :
  pools s !! m = Some objs ->
  pools s' = <[m := objs ++ [x]]> (pools s) ->
  forall p t, TType_at s p = Some t -> TType_at s' p = Some t.
Proof.
  intros Hm Hp [|m' i] t; simpl; [discriminate|]. rewrite Hp.
  destruct (decide (m = m')) as [<-|Hne].
  - rewrite Hm, lookup_insert_eq. apply lookup_app_l_Some.
  - now rewrite lookup_insert_ne.
Qed.

(** X2. Enumerators are truncated to one byte: two tuples whose
    enumerated fields agree modulo 256 and whose sizes agree have the
    same key, and once [getType] has returned [p] for one of them it
    returns the same [p] for the other, and constructs nothing. *)
Theorem getType_truncated_enumerators (ks1 ks2 : list Z) (T T' : TypeAttrs)
    (s s1 : State) (p : TTypePtr) :
  static_cast_EnumComponentType (basicType T') =
    static_cast_EnumComponentType (basicType T) ->
  static_cast_EnumComponentType (precision T') =
    static_cast_EnumComponentType (precision T) ->
  static_cast_EnumComponentType (qualifier T') =
    static_cast_EnumComponentType (qualifier T) ->
  primarySize T' = primarySize T ->
  secondarySize T' = secondarySize T ->
  reachable s ->
  getType ks1 T s = Returns p s1 ->
  load_value (TypeKey_ctor ks2 T') = load_value (TypeKey_ctor ks1 T) /\
  getType ks2 T' s1 = Returns p s1.
Proof.
  intros Hb Hp Hq Hs Ht Hreach Hfirst.
  assert (Hkey : load_value (TypeKey_ctor ks2 T') =
                 load_value (TypeKey_ctor ks1 T)).
  { unfold load_value. rewrite !TypeKey_ctor_value_bytes.
    now rewrite Hb, Hp, Hq, Hs, Ht. }
  split; [assumption|].
  pose proof (reachable_wf s Hreach) as Hwf.
  destruct (getType_returns_wf _ _ _ _ _ Hwf Hfirst) as (Hwf1 & _ & Hc1).
  unfold cached in Hc1.
  destruct (deref_sCache s1) as [c|] eqn:Hc; [|discriminate].
  apply getType_hit with c; [apply Hwf1|assumption|].
  now rewrite Hkey.
Qed.

(** X3. From a state reached from the start of the process, the only
    call that does not come back is [getType] while [sCache] is null,
    which dereferences the null pointer; every call that comes back has
    released the mutex. *)
Theorem call_comes_back (c : Call) (s : State) :
  reachable s ->
  (call c s = None <->
   exists ks T, c = Call_getType ks T /\ sCache s = None /\
                getType ks T s = Undefined) /\
  (forall s', call c s = Some s' -> sCacheMutex s' = false).
Proof.
  intros Hreach. pose proof (reachable_wf s Hreach) as Hwf.
  split.
  - split.
    + intros Hnone. destruct c as [| |ks T].
      * simpl in Hnone. destruct (sCache s) as [a|] eqn:Ha.
        -- rewrite (initialize_nonnull s a) in Hnone; [discriminate| |assumption].
           apply Hwf.
        -- rewrite initialize_null in Hnone; [discriminate| |assumption].
           apply Hwf.
      * simpl in Hnone. destruct (sCache s) as [a|] eqn:Ha.
        -- destruct (proj2 (proj2 Hwf) a Ha) as (c & Hc & _).
           rewrite (destroy_nonnull s a c) in Hnone;
             [discriminate| |assumption|assumption].
           apply Hwf.
        -- rewrite destroy_null in Hnone; [discriminate| |assumption].
           apply Hwf.
      * exists ks, T. split; [reflexivity|].
        destruct (sCache s) as [a|] eqn:Ha.
        -- destruct (getType_wf ks T s Hwf) as (s1 & _ & _ & [(p & Hr & _)|Hr]);
             [rewrite Ha; eauto| |]; simpl in Hnone; rewrite Hr in Hnone;
             discriminate.
        -- split; [reflexivity|]. apply getType_null; [apply Hwf|assumption].
    + intros (ks & T & -> & Hn & Hu). simpl. now rewrite Hu.
  - intros s' Hcall. now apply (call_wf c s s' Hwf Hcall).
Qed.

(** X4. [getType] hands out what was asked for: the pointer it returns
    designates a realized descriptor, built from a tuple that has the
    key of [T]; it was built from [T] itself when the call was a miss,
    and also when the packed record fits the key and both tuples have
    all their fields within one byte. *)
Theorem getType_descriptor (ks : list Z) (T : TypeAttrs) (s s' : State)
    (p : TTypePtr) :
  reachable s ->
  getType ks T s = Returns p s' ->
  exists t, TType_at s' p = Some t /\ realized t = true /\
    key_of (type_attrs t) = key_of T /\
    (cached s (key_of T) = None -> type_attrs t = T) /\
    (TypeKey_static_assert -> attrs_in_domain T ->
     attrs_in_domain (type_attrs t) -> type_attrs t = T).
Proof.
  intros Hreach Hr.
  pose proof (reachable_wf s Hreach) as Hwf.
  destruct (reachable_owned_inv s Hreach) as (P0 & g0 & Hown).
  destruct (getType_returns_initialized _ _ _ _ _ Hwf Hr) as [a Ha].
  destruct (owned_inv_cache _ _ _ _ Hown Ha)
    as (c & objs & _ & Hc & _ & _ & Hpool & Hent).
  assert (Hinj : forall t, key_of (type_attrs t) = key_of T ->
            TypeKey_static_assert -> attrs_in_domain T ->
            attrs_in_domain (type_attrs t) -> type_attrs t = T).
  { intros t Hk Hsz HT Ht. now apply (TypeKey_value_inj [] []). }
  destruct (getType_cases ks T s a c objs (proj1 Hwf) Ha Hc Hpool)
    as [(q & Hq & Hhit) | (Hmiss & [Hthr | [Hthr | Hret]])];
    try (rewrite Hthr in Hr; discriminate).
  - rewrite Hhit in Hr. injection Hr as -> ->.
    destruct (Hent _ _ Hq) as (i & t & -> & Hi & Hreal & Hk).
    exists t. simpl. rewrite Hpool. repeat split; auto.
    unfold cached, deref_sCache. rewrite Ha, Hc, Hq. discriminate.
  - rewrite Hret in Hr. injection Hr as <- <-.
    exists (mkTType T true). simpl. rewrite lookup_insert_eq.
    rewrite lookup_app_r, Nat.sub_diag by lia. auto.
Qed.

(** X5. Descriptors stay where they are: calls among which there is no
    [destroy] leave every descriptor that can be read through a pointer
    readable through the same pointer, and unchanged. *)
Theorem descriptors_stable (cs : list Call) (s s' : State) (p : TTypePtr)
    (t : TType) :
  reachable s ->
  forallb (fun c => negb (is_destroy c)) cs = true ->
  run cs s = Some s' ->
  TType_at s p = Some t ->
  TType_at s' p = Some t.
Proof.
  intros Hreach. pose proof (reachable_wf s Hreach) as Hwf. clear Hreach.
  revert s Hwf. induction cs as [|c cs IH]; simpl; intros s Hwf Hnd Hrun Hat.
  - now injection Hrun as <-.
  - apply andb_prop in Hnd as [Hc Hcs]. apply negb_true_iff in Hc.
    destruct (call c s) as [s1|] eqn:Hcall; [|discriminate].
    apply (IH s1); [now apply call_wf with c s|assumption|assumption|].
    destruct Hwf as [Hm [Hfresh Hinv]].
    destruct c as [| |ks T]; simpl in Hcall; [|discriminate|].
    + destruct (sCache s) as [a|] eqn:Ha.
      * rewrite (initialize_nonnull s a) in Hcall by assumption.
        now injection Hcall as <-.
      * rewrite initialize_null in Hcall by assumption.
        injection Hcall as <-. destruct p as [|m i]; [discriminate|].
        simpl in *. destruct (pools s !! m) as [objs|] eqn:Hp; [|discriminate].
        rewrite lookup_insert_ne, Hp; [assumption|].
        intros <-. assert (fresh s < fresh s)%nat; [|lia].
        apply Hfresh. rewrite Hp. eauto.
    + destruct (sCache s) as [a|] eqn:Ha.
      * destruct (Hinv a eq_refl) as (c & Hc' & (objs & Hpool & _) & _).
        destruct (getType_cases ks T s a c objs Hm Ha Hc' Hpool)
          as [(q & _ & Hr) | (_ & [Hr | [Hr | Hr]])];
          rewrite Hr in Hcall; injection Hcall as <-; auto.
        -- now apply (TType_at_grow s _ (mAllocator c) objs (mkTType T false)).
        -- now apply (TType_at_grow s _ (mAllocator c) objs (mkTType T true)).
      * rewrite getType_null in Hcall by assumption. discriminate.
Qed.

(** X6. [destroy] gives back all the cache held: in a process that has
    made any calls, after [destroy] no [TCache] is alive, the pools are
    those the process started with, and every pointer the map held
    designates nothing any more. *)
Theorem destroy_releases (cs : list Call) (s0 s : State) :
  process_start s0 ->
  run cs s0 = Some s ->
  exists s', destroy s = Returns tt s' /\
    caches s' = ∅ /\ pools s' = pools s0 /\
    forall k p, cached s k = Some p -> TType_at s' p = None.
Proof.
  intros Hstart Hrun.
  assert (Hwf : wf s) by (apply run_wf with cs s0; auto using process_start_wf).
  assert (Hown : owned_inv (pools s0) (globalPoolAllocator s0) s).
  { apply run_owned_inv with cs s0;
      auto using process_start_wf, process_start_owned_inv. }
  destruct (sCache s) as [a|] eqn:Ha.
  - destruct (owned_inv_cache _ _ _ _ Hown Ha)
      as (c & objs & Hcs & Hc & HP & Hp & _ & Hent).
    exists (after_destroy a c s).
    split; [apply destroy_nonnull; auto; apply Hwf|]. simpl.
    split; [rewrite Hcs; apply delete_singleton_eq|].
    assert (Hpools : delete (mAllocator c) (pools s) = pools s0)
      by (rewrite Hp; now apply delete_insert_id).
    split; [assumption|].
    intros k p Hk. unfold cached, deref_sCache in Hk. rewrite Ha, Hc in Hk.
    destruct (Hent k p Hk) as (i & t & -> & _). simpl.
    now rewrite Hpools, HP.
  - exists s. split; [apply destroy_null; auto; apply Hwf|].
    destruct Hown as [_ H]. rewrite Ha in H. destruct H as [Hcs Hp].
    split; [assumption|]. split; [assumption|].
    intros k p Hk. unfold cached, deref_sCache in Hk. rewrite Ha in Hk.
    discriminate.
Qed.

(** X7. The calls touch nothing of the callers': in a process that has
    made any calls, the ambient allocator is the one the process
    started with, every pool it started with holds what it held, and
    at most one [TCache] is alive, the one [sCache] points to. *)
Theorem callers_state_untouched (cs : list Call) (s0 s : State) :
  process_start s0 ->
  run cs s0 = Some s ->
  GetGlobalPoolAllocator s = GetGlobalPoolAllocator s0 /\
  (forall m objs, pools s0 !! m = Some objs -> pools s !! m = Some objs) /\
  match sCache s with
  | None => caches s = ∅
  | Some a => exists c, caches s = {[a := c]}
  end.
Proof.
  intros Hstart Hrun.
  assert (Hown : owned_inv (pools s0) (globalPoolAllocator s0) s).
  { apply run_owned_inv with cs s0;
      auto using process_start_wf, process_start_owned_inv. }
  split; [apply Hown|].
  destruct (sCache s) as [a|] eqn:Ha.
  - destruct (owned_inv_cache _ _ _ _ Hown Ha)
      as (c & objs & Hcs & _ & HP & Hp & _ & _).
    split; [|eauto].
    intros m objs0 Hm. rewrite Hp, lookup_insert_ne; [assumption|].
    intros <-. congruence.
  - destruct Hown as [_ H]. rewrite Ha in H. destruct H as [Hcs Hp].
    split; [|assumption]. intros m objs0 Hm. now rewrite Hp.
Qed.

(** X8. [destroy] is idempotent: a second call right after the first
    leaves the result and the state of the first, in every state. *)
Theorem destroy_idempotent (s : State) :
  bind (destroy s) (fun _ => destroy) = destroy s.
Proof.
  destruct (sCacheMutex s) eqn:Hm.
  { unfold destroy. now rewrite AutoEnterCacheMutex_held. }
  destruct (sCache s) as [a|] eqn:Ha.
  - destruct (caches s !! a) as [c|] eqn:Hc.
    + rewrite (destroy_nonnull s a c) by assumption. simpl.
      now apply destroy_null.
    + unfold destroy. rewrite AutoEnterCacheMutex_free by assumption.
      unfold SafeDelete_sCache, delete_TCache. simpl sCache. rewrite Ha.
      simpl caches. now rewrite Hc.
  - rewrite destroy_null by assumption. simpl. now apply destroy_null.
Qed.

(** X9. A session leaves no trace but a used identity: from a state
    without a singleton, [initialize] followed by [destroy] returns,
    and brings back the state as it was, with only the counter of
    identities advanced. *)
Theorem initialize_destroy_round_trip (s : State) :
  reachable s ->
  sCache s = None ->
  bind (initialize s) (fun _ => destroy) =
  Returns tt (mkState None (caches s) (pools s) (globalPoolAllocator s)
                      false (S (fresh s))).
Proof.
  intros Hreach Hn.
  destruct (reachable_wf s Hreach) as [Hm [Hfresh _]].
  destruct (reachable_owned_inv s Hreach) as (P0 & g0 & [_ Hown]).
  rewrite Hn in Hown. destruct Hown as [Hcs _].
  rewrite initialize_null by assumption. simpl.
  rewrite (destroy_nonnull _ (fresh s) (mkTCache ∅ (fresh s)));
    [|assumption|reflexivity|apply lookup_insert_eq].
  unfold after_destroy, after_initialize. simpl. f_equal. f_equal.
  - rewrite Hcs. rewrite delete_insert_id; [reflexivity|apply lookup_empty].
  - apply delete_insert_id.
    destruct (pools s !! fresh s) eqn:Hp; [|reflexivity].
    assert (fresh s < fresh s)%nat; [|lia]. apply Hfresh. rewrite Hp. eauto.
  - assumption.
Qed.

(** ** Threads: every interleaving is a sequence of calls *)

Lemma run_thread_enough (ks : list Z) (T : TypeAttrs) (f : nat) :
  forall pc s, (remaining pc <= f)%nat ->
    run_thread f ks T pc s = run_thread (remaining pc) ks T pc s.
Proof.
  induction f as [f IH] using lt_wf_ind. intros pc s Hle.
  destruct (is_finished pc) eqn:Hpc.
  { destruct pc; try discriminate. now rewrite !run_thread_finished. }
  assert (Hpos : exists r, remaining pc = S r)
    by (destruct pc; simpl; try discriminate; eauto).
  destruct Hpos as [r Hr]. destruct f as [|f']; [lia|].
  rewrite Hr, !run_thread_step by assumption.
  destruct (thread_step ks T pc s) as [[pc' s']|] eqn:Hstep; [|reflexivity].
  apply thread_step_remaining in Hstep.
  rewrite (IH f') by lia. rewrite (IH r) by lia. reflexivity.
Qed.

Lemma thread_step_in_section (ks : list Z) (T : TypeAttrs) (pc : PC)
    (s : State) :
  is_idle pc = false ->
  exists pc' s', thread_step ks T pc s = Some (pc', s') /\
    ((is_idle pc' = false /\ sCacheMutex s' = sCacheMutex s) \/
     exists o, pc' = finished o).
Proof.
  destruct pc as [| | |sc|sc ty|sc ty|sc o|o|o]; simpl; intros H;
    try discriminate.
  - destruct (deref_sCache s) as [c|]; [|eauto 6].
    destruct (mTypes c !! _); eauto 8.
  - destruct (deref_sCache s) as [c|]; eauto 8.
  - unfold new_TType. destruct (GetGlobalPoolAllocator s); simpl; [|eauto 6].
    destruct (pools s !! _); simpl; [|eauto 6].
    destruct (new_TType_throws T s); simpl; eauto 8.
  - unfold TType_realize. destruct ty; simpl; [eauto 6|].
    destruct (pools s !! _); simpl; [|eauto 6].
    destruct (_ !! _); simpl; [|eauto 6].
    destruct (realize_throws _ s); simpl; eauto 8.
  - unfold mTypes_insert. destruct (sCache s); simpl; [|eauto 6].
    destruct (caches s !! _); simpl; eauto 8.
  - eauto 8.
  - eauto 8.
Qed.

Lemma serial_app (l1 l2 : list nat) (ths : list Thread) (s : State) :
  serial (l1 ++ l2) ths s =
  match serial l1 ths s with
  | Some s1 => serial l2 ths s1
  | None => None
  end.
Proof.
  revert s. induction l1 as [|i l1 IH]; intros s; simpl; [reflexivity|].
  destruct (ths !! i) as [th|]; [|reflexivity].
  destruct (call_outcome _) as [[o s']|]; [|reflexivity].
  destruct (decide _); [apply IH|reflexivity].
Qed.

Lemma serial_insert (order : list nat) (ths : list Thread) (i : nat)
    (th : Thread) (s : State) :
  i ∉ order -> serial order (<[i := th]> ths) s = serial order ths s.
Proof.
  revert s. induction order as [|j order IH]; intros s Hi; simpl;
    [reflexivity|].
  apply not_elem_of_cons in Hi as [Hne Hi].
  rewrite list_lookup_insert_ne by congruence.
  destruct (ths !! j) as [thj|]; [|reflexivity].
  destruct (call_outcome _) as [[o s']|]; [|reflexivity].
  destruct (decide _); [now apply IH|reflexivity].
Qed.

Lemma run_thread_call_outcome (ks : list Z) (T : TypeAttrs) (s s' : State)
    (o : Outcome) :
  run_thread 8 ks T at_Lock s = Some (o, s') -> o <> Crashed ->
  call_outcome (getType ks T s) = Some (o, s').
Proof.
  intros Hrun Hne. pose proof (run_thread_getType ks T s) as H.
  destruct (getType ks T s) as [p s1|s1| |]; simpl.
  - congruence.
  - congruence.
  - destruct H as [s1 H]. congruence.
  - congruence.
Qed.

Lemma call_outcome_releases (ks : list Z) (T : TypeAttrs) (s s' : State)
    (o : Outcome) :
  call_outcome (getType ks T s) = Some (o, s') -> sCacheMutex s' = false.
Proof.
  unfold getType, AutoEnterCacheMutex, CacheMutex_Lock.
  destruct (sCacheMutex s); [discriminate|]. cbn [bind].
  match goal with |- context [at_scope_exit _ ?r] => destruct r end;
    simpl; intros H; try discriminate; now injection H as _ <-.
Qed.

Lemma is_finished_idle (pc : PC) : is_finished pc = true -> is_idle pc = true.
Proof. destruct pc; simpl; congruence. Qed.

Lemma serial_inv_start (s : State) (ths : list Thread) :
  sCacheMutex s = false ->
  Forall (fun th => thread_pc th = at_Lock) ths ->
  serial_inv s (mkSystem s ths).
Proof.
  intros Hm Hall. rewrite Forall_lookup in Hall.
  right. exists [], s. cbn [threads shared serial]. split; [constructor|].
  split; [reflexivity|]. split; [assumption|]. split.
  - intros j. split; [intros Hj; now apply elem_of_nil in Hj|].
    intros (th & Hth & Hfin). rewrite (Hall j th Hth) in Hfin. discriminate.
  - left. split; [reflexivity|].
    intros j th Hth. now rewrite (Hall j th Hth).
Qed.

Lemma serial_inv_step (s : State) (sys sys' : System) :
  serial_inv s sys -> step sys sys' -> serial_inv s sys'.
Proof.
  intros Hinv Hst. destruct Hst as [sys i th pc' s' Hth Hstep].
  assert (Hlt : (i < length (threads sys))%nat) by now apply lookup_lt_Some in Hth.
  destruct Hinv as [(j & thj & Hj & Hcr) |
                    (done & s_d & Hnd & Hser & Hmd & Hiff & Hsec)].
  { (* a crashed thread stays crashed *)
    left. exists j, thj. split; [|assumption]. cbn [threads shared].
    rewrite list_lookup_insert_ne; [assumption|].
    intros <-. rewrite Hth in Hj. injection Hj as <-.
    rewrite Hcr in Hstep. discriminate. }
  assert (Hnf : is_finished (thread_pc th) = false).
  { destruct (thread_pc th); try reflexivity. discriminate. }
  assert (Hidone : i ∉ done).
  { intros Hin. apply Hiff in Hin as (th0 & Hth0 & Hf).
    rewrite Hth in Hth0. injection Hth0 as <-. congruence. }
  set (th' := mkThread (thread_key_storage th) (thread_attrs th) pc').
  assert (Hiff' : forall done' : list nat,
            (forall j, j ∈ done' <-> j ∈ done \/ (j = i /\ is_finished pc' = true)) ->
            forall j, j ∈ done' <->
              exists t, <[i := th']> (threads sys) !! j = Some t /\
                is_finished (thread_pc t) = true).
  { intros done' Hd j. rewrite Hd, Hiff. split.
    - intros [(t & Ht & Hf) | [-> Hf]].
      + exists t. split; [|assumption].
        rewrite list_lookup_insert_ne; [assumption|]. congruence.
      + exists th'. split; [|assumption]. now apply list_lookup_insert_eq.
    - intros (t & Ht & Hf).
      destruct (lookup_insert_cases _ _ _ _ _ Ht) as [[-> ->]|[Hne Ht']];
        [right; auto|left; eauto]. }
  destruct Hsec as [[Hsh Hidle] | (h & thh & Hh & Hbusy & Hmx & Hrun & Hothers)].
  - (* the mutex is free: the thread takes it *)
    pose proof (Hidle i th Hth) as Hi.
    destruct (thread_pc th) eqn:Hpc; try discriminate.
    simpl in Hstep. unfold CacheMutex_Lock in Hstep.
    rewrite Hsh, Hmd in Hstep. simpl in Hstep. injection Hstep as <- <-.
    right. exists done, s_d. cbn [threads shared].
    split; [assumption|]. split; [now rewrite serial_insert|].
    split; [assumption|]. split.
    { apply Hiff'. intros j. split; [auto|]. intros [H|[_ H]]; [assumption|].
      discriminate. }
    right. exists i, th'. split; [now apply list_lookup_insert_eq|].
    split; [reflexivity|]. split; [reflexivity|]. split.
    + cbn [thread_pc thread_key_storage thread_attrs th' remaining].
      symmetry. rewrite run_thread_step by reflexivity.
      cbn [thread_step]. unfold CacheMutex_Lock. rewrite Hmd.
      reflexivity.
    + intros j t Hne Ht. rewrite list_lookup_insert_ne in Ht by congruence.
      now apply (Hidle j t).
  - (* the mutex is held: only its holder can move *)
    destruct (decide (i = h)) as [->|Hne].
    2:{ specialize (Hothers i th Hne Hth).
        destruct (thread_pc th); try discriminate.
        simpl in Hstep. unfold CacheMutex_Lock in Hstep.
        rewrite Hmx in Hstep. discriminate. }
    rewrite Hth in Hh. injection Hh as <-.
    destruct (thread_step_in_section (thread_key_storage th) (thread_attrs th)
                (thread_pc th) (shared sys) Hbusy)
      as (pc1 & st1 & Hstep1 & Hnext).
    rewrite Hstep1 in Hstep. injection Hstep as <- <-.
    assert (Hpos : exists r, remaining (thread_pc th) = S r)
      by (destruct (thread_pc th); simpl; try discriminate; eauto).
    destruct Hpos as [r Hr].
    pose proof (thread_step_remaining _ _ _ _ _ _ Hstep1) as Hdec.
    rewrite Hr, run_thread_step, Hstep1 in Hrun by assumption.
    rewrite run_thread_enough in Hrun by lia.
    destruct Hnext as [[Hbusy1 Hmx1] | [o ->]].
    + right. exists done, s_d. cbn [threads shared].
      split; [assumption|]. split; [now rewrite serial_insert|].
      split; [assumption|]. split.
      { apply Hiff'. intros j. split; [auto|]. intros [H|[_ H]]; [assumption|].
        apply is_finished_idle in H. congruence. }
      right. exists h, th'. split; [now apply list_lookup_insert_eq|].
      split; [assumption|]. split; [congruence|]. split; [assumption|].
      intros j t Hne Ht. rewrite list_lookup_insert_ne in Ht by congruence.
      now apply (Hothers j t).
    + rewrite run_thread_finished in Hrun. symmetry in Hrun.
      destruct (decide (o = Crashed)) as [->|Hnc].
      { left. exists h, th'. split; [now apply list_lookup_insert_eq|].
        reflexivity. }
      pose proof (run_thread_call_outcome _ _ _ _ _ Hrun Hnc) as Hout.
      right. exists (done ++ [h]), st1. cbn [threads shared].
      split.
      { apply NoDup_app. split; [assumption|]. split; [|apply NoDup_singleton].
        intros x Hx Hx'. apply list_elem_of_singleton in Hx' as ->. contradiction. }
      split.
      { rewrite serial_app, serial_insert, Hser by assumption.
        cbn [serial]. rewrite list_lookup_insert_eq by assumption.
        cbn [th' thread_key_storage thread_attrs]. rewrite Hout.
        now rewrite decide_True. }
      split; [now apply call_outcome_releases in Hout|].
      split.
      { apply Hiff'. intros j. rewrite elem_of_app, list_elem_of_singleton.
        split; [intros [H| ->]; auto|]. intros [H|[-> _]]; auto. }
      left. split; [reflexivity|].
      intros j t Ht.
      destruct (lookup_insert_cases _ _ _ _ _ Ht) as [[-> ->]|[Hne Ht']];
        [reflexivity|now apply (Hothers j t)].
Qed.

Lemma serial_inv_steps (s : State) (sys sys' : System) :
  serial_inv s sys -> rtc step sys sys' -> serial_inv s sys'.
Proof.
  intros Hinv Hsteps. induction Hsteps as [|x y z Hxy _ IH]; [assumption|].
  apply IH. now apply serial_inv_step with x.
Qed.

Lemma steps_same_calls (sys sys' : System) :
  rtc step sys sys' ->
  map (fun th => (thread_key_storage th, thread_attrs th)) (threads sys') =
  map (fun th => (thread_key_storage th, thread_attrs th)) (threads sys).
Proof.
  induction 1 as [|x y z Hxy _ IH]; [reflexivity|].
  rewrite IH. destruct Hxy as [sys0 i th pc' s' Hth Hstep]. simpl.
  change (@map) with (@fmap list _). rewrite list_fmap_insert. simpl.
  apply list_insert_id. rewrite list_lookup_fmap, Hth. reflexivity.
Qed.

(** X10. The mutex makes concurrent calls of [getType] serializable.
    Threads call [getType], each for a tuple of its own, from a state in
    which the mutex is free. In every interleaving of their statements
    in which all calls have ended and none has crashed, the threads can
    be put in an order such that making their calls one after the other
    in that order gives every thread the outcome it had, and leads to
    the state the threads have left. *)
Theorem getType_serializable (ths : list Thread) (s : State) (sys : System) :
  sCacheMutex s = false ->
  Forall (fun th => thread_pc th = at_Lock) ths ->
  rtc step (mkSystem s ths) sys ->
  all_finished sys = true ->
  Forall (fun th => thread_pc th <> finished Crashed) (threads sys) ->
  map (fun th => (thread_key_storage th, thread_attrs th)) (threads sys) =
  map (fun th => (thread_key_storage th, thread_attrs th)) ths /\
  exists order,
    order ≡ₚ seq 0 (length ths) /\
    serial order (threads sys) s = Some (shared sys).
Proof.
  intros Hm Hstart Hsteps Hfin Hnc.
  pose proof (steps_same_calls _ _ Hsteps) as Hcalls. simpl in Hcalls.
  split; [assumption|].
  assert (Hlen : length (threads sys) = length ths).
  { apply (f_equal length) in Hcalls. now rewrite !length_map in Hcalls. }
  unfold all_finished in Hfin. rewrite forallb_forall in Hfin.
  assert (Hdone : forall j th, threads sys !! j = Some th ->
            is_finished (thread_pc th) = true).
  { intros j th Hj. apply Hfin, list_elem_of_In.
    now apply list_elem_of_lookup_2 with j. }
  rewrite Forall_lookup in Hnc.
  destruct (serial_inv_steps s _ sys (serial_inv_start s ths Hm Hstart) Hsteps)
    as [(j & th & Hj & Hcr) | (done & s_d & Hnd & Hser & _ & Hiff & Hsec)].
  { now destruct (Hnc j th Hj). }
  exists done. split.
  - apply NoDup_Permutation; [assumption|apply NoDup_seq|].
    intros j. rewrite Hiff, elem_of_seq. split.
    + intros (th & Hj & _). apply lookup_lt_Some in Hj. lia.
    + intros [_ Hj]. destruct (lookup_lt_is_Some_2 (threads sys) j) as [th Hth];
        [lia|]. eauto.
  - destruct Hsec as [[-> _] | (h & th & Hh & Hbusy & _)]; [assumption|].
    apply Hdone, is_finished_idle in Hh. congruence.
Qed.

(** X11. Threads that call [getType] do not deadlock: in every
    interleaving, as long as no call has crashed and some call has not
    ended, some thread can take a step; and every step brings the calls
    nearer to their end. *)
Theorem getType_threads_progress (ths : list Thread) (s : State)
    (sys : System) :
  sCacheMutex s = false ->
  Forall (fun th => thread_pc th = at_Lock) ths ->
  rtc step (mkSystem s ths) sys ->
  Forall (fun th => thread_pc th <> finished Crashed) (threads sys) ->
  all_finished sys = false ->
  (exists sys', step sys sys') /\
  (forall sys', step sys sys' -> (weight sys' < weight sys)%nat).
Proof.
  intros Hm Hstart Hsteps Hnc Hfin. split; [|apply step_weight].
  rewrite Forall_lookup in Hnc.
  destruct (serial_inv_steps s _ sys (serial_inv_start s ths Hm Hstart) Hsteps)
    as [(j & th & Hj & Hcr) | (done & s_d & _ & _ & Hmd & _ & Hsec)].
  { now destruct (Hnc j th Hj). }
  destruct Hsec as [[Hsh Hidle] | (h & th & Hh & Hbusy & _)].
  - unfold all_finished in Hfin.
    apply forallb_false_lookup in Hfin as (j & th & Hj & Hnf).
    specialize (Hidle j th Hj).
    destruct (thread_pc th) eqn:Hpc; try discriminate.
    eexists. apply (step_thread sys j th at_find (set_mutex true (shared sys)));
      [assumption|].
    rewrite Hpc. simpl. unfold CacheMutex_Lock. now rewrite Hsh, Hmd.
  - destruct (thread_step_in_section (thread_key_storage th) (thread_attrs th)
                (thread_pc th) (shared sys) Hbusy) as (pc1 & st1 & Hstep1 & _).
    eexists. now apply (step_thread sys h th pc1 st1).
Qed.

(** X12. When the construction of a descriptor throws, nothing is
    published: a call of [getType] that leaves by an exception leaves
    the map, the singleton and the ambient allocator as they were, and
    every descriptor that could be read can still be read. *)
Theorem getType_throw_publishes_nothing (ks : list Z) (T : TypeAttrs)
    (s s' : State) :
  reachable s ->
  getType ks T s = Throws s' ->
  sCache s' = sCache s /\
  caches s' = caches s /\
  GetGlobalPoolAllocator s' = GetGlobalPoolAllocator s /\
  cached s' (key_of T) = None /\
  forall p t, TType_at s p = Some t -> TType_at s' p = Some t.
Proof.
  intros Hreach Hthr.
  destruct (reachable_wf s Hreach) as [Hm [_ Hinv]].
  destruct (sCache s) as [a|] eqn:Ha.
  2:{ rewrite getType_null in Hthr by assumption. discriminate. }
  destruct (Hinv a eq_refl) as (c & Hc & (objs & Hpool & _) & _).
  assert (Hnone : mTypes c !! key_of T = None ->
            cached s (key_of T) = None).
  { intros Hk. unfold cached, deref_sCache. now rewrite Ha, Hc. }
  destruct (getType_cases ks T s a c objs Hm Ha Hc Hpool)
    as [(q & _ & Hr) | (Hk & [Hr | [Hr | Hr]])];
    rewrite Hr in Hthr; try discriminate; injection Hthr as <-.
  - repeat split; auto.
  - repeat split; auto.
    now apply (TType_at_grow s _ (mAllocator c) objs (mkTType T false)).
Qed.

(** ** The objects [getType] returns *)

Lemma getType_keeps_descriptors (ks : list Z) (T : TypeAttrs) (s s' : State)
    (p : TTypePtr) :
  wf s -> getType ks T s = Returns p s' ->
  forall q t, TType_at s q = Some t -> TType_at s' q = Some t.
Proof.
  intros Hwf Hr.
  destruct (getType_returns_initialized _ _ _ _ _ Hwf Hr) as [a Ha].
  destruct Hwf as [Hm [_ Hinv]].
  destruct (Hinv a Ha) as (c & Hc & (objs & Hpool & _) & _).
  destruct (getType_cases ks T s a c objs Hm Ha Hc Hpool)
    as [(q' & _ & Hhit) | (_ & [Hthr | [Hthr | Hret]])];
    try (rewrite Hthr in Hr; discriminate).
  - rewrite Hhit in Hr. injection Hr as _ <-. auto.
  - rewrite Hret in Hr. injection Hr as _ <-.
    now apply (TType_at_grow s _ (mAllocator c) objs (mkTType T true)).
Qed.

Lemma getType_returns_descriptor (P0 : gmap nat (list TType))
    (g0 : option nat) (ks : list Z) (T : TypeAttrs) (s s' : State)
    (p : TTypePtr) :
  wf s -> owned_inv P0 g0 s -> getType ks T s = Returns p s' ->
  exists t, TType_at s' p = Some t /\ realized t = true /\
    key_of (type_attrs t) = key_of T /\
    (cached s (key_of T) = None -> type_attrs t = T).
Proof.
  intros Hwf Hown Hr.
  destruct (getType_returns_initialized _ _ _ _ _ Hwf Hr) as [a Ha].
  destruct (owned_inv_cache _ _ _ _ Hown Ha)
    as (c & objs & _ & Hc & _ & _ & Hpool & Hent).
  destruct (getType_cases ks T s a c objs (proj1 Hwf) Ha Hc Hpool)
    as [(q & Hq & Hhit) | (Hmiss & [Hthr | [Hthr | Hret]])];
    try (rewrite Hthr in Hr; discriminate).
  - rewrite Hhit in Hr. injection Hr as -> ->.
    destruct (Hent _ _ Hq) as (i & t & -> & Hi & Hreal & Hk).
    exists t. simpl. rewrite Hpool. repeat split; auto.
    unfold cached, deref_sCache. rewrite Ha, Hc, Hq. discriminate.
  - rewrite Hret in Hr. injection Hr as <- <-.
    exists (mkTType T true). simpl. rewrite lookup_insert_eq.
    rewrite lookup_app_r, Nat.sub_diag by lia. auto.
Qed.

Lemma getType_returns_when_no_throw (ks : list Z) (T : TypeAttrs) (s : State) :
  wf s -> is_Some (sCache s) ->
  (forall st, new_TType_throws T st = false) ->
  (forall q st, realize_throws q st = false) ->
  exists p s', getType ks T s = Returns p s'.
Proof.
  intros [Hm [_ Hinv]] [a Ha] Hnew Hreal.
  destruct (Hinv a Ha) as (c & Hc & (objs & Hpool & _) & _).
  destruct (mTypes c !! load_value (TypeKey_ctor ks T)) as [p|] eqn:Hk.
  - exists p, s. apply getType_hit with c; auto.
    unfold deref_sCache. now rewrite Ha.
  - rewrite (getType_miss ks T s a c objs) by assumption.
    rewrite Hnew, Hreal. eauto.
Qed.

(** C2. Key uniqueness: when the packed record fits the key integer,
    two tuples whose fields are all within one byte and that differ in
    some field are encoded to different keys, as values and hence as
    objects. Two successive [getType] calls for them yield two distinct
    objects: the pointers they return differ, and after the second call
    each designates a realized descriptor of its own, with the key of
    its tuple and with attributes different from the other's; the
    descriptor was built from the tuple itself when the call was a
    miss, and whenever its attributes are within one byte. When the
    cache is initialized and the construction of the descriptors does
    not throw, both calls do return. *)
Theorem TypeKey_unique (ks1 ks2 : list Z) (T1 T2 : TypeAttrs) :
  TypeKey_static_assert ->
  attrs_in_domain T1 -> attrs_in_domain T2 -> T1 <> T2 ->
  load_value (TypeKey_ctor ks1 T1) <> load_value (TypeKey_ctor ks2 T2) /\
  TypeKey_ctor ks1 T1 <> TypeKey_ctor ks2 T2 /\
  (forall s s1 s2 p1 p2,
     reachable s ->
     getType ks1 T1 s = Returns p1 s1 ->
     getType ks2 T2 s1 = Returns p2 s2 ->
     p1 <> p2 /\
     exists t1 t2,
       TType_at s2 p1 = Some t1 /\ TType_at s2 p2 = Some t2 /\
       realized t1 = true /\ realized t2 = true /\
       key_of (type_attrs t1) = key_of T1 /\
       key_of (type_attrs t2) = key_of T2 /\
       type_attrs t1 <> type_attrs t2 /\
       (cached s (key_of T1) = None -> type_attrs t1 = T1) /\
       (cached s1 (key_of T2) = None -> type_attrs t2 = T2) /\
       (attrs_in_domain (type_attrs t1) -> type_attrs t1 = T1) /\
       (attrs_in_domain (type_attrs t2) -> type_attrs t2 = T2)) /\
  (forall s,
     reachable s -> is_Some (sCache s) ->
     (forall st, new_TType_throws T1 st = false) ->
     (forall st, new_TType_throws T2 st = false) ->
     (forall q st, realize_throws q st = false) ->
     exists p1 s1 p2 s2,
       getType ks1 T1 s = Returns p1 s1 /\
       getType ks2 T2 s1 = Returns p2 s2).
Proof.
  intros Hsz Hd1 Hd2 Hne.
  assert (Hkeys : load_value (TypeKey_ctor ks1 T1) <>
                  load_value (TypeKey_ctor ks2 T2)).
  { intros Heq. apply Hne. now apply (TypeKey_value_inj ks1 ks2). }
  split; [assumption|]. split.
  { intros Heq. apply Hkeys. now rewrite Heq. }
  split.
  - intros s s1 s2 p1 p2 Hreach H1 H2.
    pose proof (reachable_wf s Hreach) as Hwf.
    destruct (reachable_owned_inv s Hreach) as (P0 & g0 & Hown).
    destruct (getType_returns_wf _ _ _ _ _ Hwf H1) as (Hwf1 & _ & Hc1).
    destruct (getType_returns_wf _ _ _ _ _ Hwf1 H2) as (Hwf2 & Hext2 & Hc2).
    assert (Hown1 : owned_inv P0 g0 s1).
    { apply (call_owned_inv P0 g0 (Call_getType ks1 T1) s s1); auto.
      simpl. now rewrite H1. }
    destruct (getType_returns_descriptor P0 g0 _ _ _ _ _ Hwf Hown H1)
      as (t1 & Ht1 & Hr1 & Hk1 & Hm1).
    destruct (getType_returns_descriptor P0 g0 _ _ _ _ _ Hwf1 Hown1 H2)
      as (t2 & Ht2 & Hr2 & Hk2 & Hm2).
    split.
    { intros <-. destruct Hext2 as (_ & _ & _ & Hkeep).
      apply Hkeys. apply (wf_cached_inj s2 _ _ p1); auto. }
    exists t1, t2.
    split; [now apply (getType_keeps_descriptors ks2 T2 s1 s2 p2)|].
    split; [assumption|]. split; [assumption|]. split; [assumption|].
    split; [assumption|]. split; [assumption|].
    split.
    { intros Heq. apply Hkeys. rewrite !key_of_eq.
      now rewrite <- Hk1, <- Hk2, Heq. }
    split; [assumption|]. split; [assumption|].
    split; intros Hd; now apply (TypeKey_value_inj [] []).
  - intros s Hreach Hinit Hnew1 Hnew2 Hreal.
    pose proof (reachable_wf s Hreach) as Hwf.
    destruct (getType_returns_when_no_throw ks1 T1 s Hwf Hinit Hnew1 Hreal)
      as (p1 & s1 & H1).
    destruct (getType_returns_wf _ _ _ _ _ Hwf H1) as (Hwf1 & Hext1 & _).
    assert (Hinit1 : is_Some (sCache s1)) by (destruct Hext1 as [-> _]; auto).
    destruct (getType_returns_when_no_throw ks2 T2 s1 Hwf1 Hinit1 Hnew2 Hreal)
      as (p2 & s2 & H2).
    exists p1, s1, p2, s2. auto.
Qed.

(** C6. Isolation across sessions: when [p] is cached for the tuple [T]
    and the construction of a descriptor does not throw, then after
    [destroy] and [initialize] the key of [T] is absent from the map,
    and [getType] for [T] returns a pointer to a newly constructed
    object, distinct from the one [p] designated: [p] designated a
    descriptor before [destroy] and designates nothing after it; the
    pointer returned differs from [p], designated nothing before the
    call, and designates after it a realized descriptor built from [T],
    which is stored under the key of [T]. *)
Theorem getType_after_destroy_initialize (ks1 ks2 : list Z) (T : TypeAttrs)
    (s : State) (p : TTypePtr) :
  reachable s ->
  cached s (load_value (TypeKey_ctor ks1 T)) = Some p ->
  (forall st, new_TType_throws T st = false) ->
  (forall q st, realize_throws q st = false) ->
  exists s1 s2 s3 p',
    destroy s = Returns tt s1 /\
    initialize s1 = Returns tt s2 /\
    cached s2 (load_value (TypeKey_ctor ks2 T)) = None /\
    getType ks2 T s2 = Returns p' s3 /\
    p' <> p /\
    is_Some (TType_at s p) /\
    TType_at s1 p = None /\ TType_at s3 p = None /\
    TType_at s2 p' = None /\
    TType_at s3 p' = Some (mkTType T true) /\
    cached s3 (load_value (TypeKey_ctor ks2 T)) = Some p'.
Proof.
  intros Hreach Hp Hnew Hreal.
  destruct (reachable_wf s Hreach) as [Hmx [Hfresh Hinv]].
  unfold cached, deref_sCache in Hp.
  destruct (sCache s) as [a|] eqn:Ha; [|discriminate].
  destruct (Hinv a eq_refl) as (c & Hc & (objs & Hpool & Hent) & _).
  rewrite Hc in Hp. destruct (Hent _ _ Hp) as (i & -> & Hi).
  assert (Hm : (mAllocator c < fresh s)%nat)
    by (apply Hfresh; rewrite Hpool; eauto).
  set (s1 := after_destroy a c s).
  set (s2 := after_initialize s1).
  set (c2 := mkTCache ∅ (fresh s)).
  assert (Hmiss : mTypes c2 !! load_value (TypeKey_ctor ks2 T) = None)
    by apply lookup_empty.
  assert (Hc2 : caches s2 !! fresh s = Some c2) by apply lookup_insert_eq.
  assert (Hpool2 : pools s2 !! mAllocator c2 = Some [])
    by apply lookup_insert_eq.
  exists s1, s2. eexists. exists (in_pool (fresh s) 0).
  split; [now apply destroy_nonnull|].
  split; [now apply initialize_null|].
  split.
  { unfold cached, deref_sCache. change (sCache s2) with (Some (fresh s)).
    cbv beta iota. rewrite Hc2. assumption. }
  split.
  { rewrite (getType_miss ks2 T s2 (fresh s) c2 []); auto.
    rewrite Hnew, Hreal. reflexivity. }
  split; [intros [= E _]; lia|].
  split.
  { simpl. rewrite Hpool. now apply lookup_lt_is_Some_2. }
  split; [simpl; now rewrite lookup_delete_eq|].
  split.
  { simpl. rewrite lookup_insert_ne by (simpl; lia).
    rewrite lookup_insert_ne by lia. now rewrite lookup_delete_eq. }
  split; [simpl; now rewrite lookup_insert_eq|].
  split; [simpl; now rewrite lookup_insert_eq|].
  unfold cached, deref_sCache. simpl. rewrite !lookup_insert_eq.
  simpl. apply lookup_insert_eq.
Qed.

End Cache.

(** * The theorems at the example inputs *)

Lemma example_start_process_start : process_start example_start.
Proof.
  repeat split. intros a [x Hx]. simpl in Hx.
  rewrite lookup_empty in Hx. discriminate.
Qed.

Lemma example_initialized_reachable :
  reachable 8 false never_new never_realize example_initialized.
Proof.
  exists example_start, [Call_initialize].
  split; [exact example_start_process_start|]. vm_compute. reflexivity.
Qed.

Lemma example_Float_cached_reachable :
  reachable 8 false never_new never_realize example_Float_cached.
Proof.
  exists example_start, [Call_initialize; Call_getType [] example_Float].
  split; [exact example_start_process_start|]. vm_compute. reflexivity.
Qed.

Lemma getType_interning_witness :
  getType 8 false never_new never_realize [] example_Float example_initialized
    = Returns (in_pool 0 0) example_Float_cached /\
  exists s2,
    run 8 false never_new never_realize
        [Call_initialize; Call_getType [] example_Int] example_Float_cached
      = Some s2 /\
    getType 8 false never_new never_realize example_garbage example_Float s2
      = Returns (in_pool 0 0) s2 /\
    forall k q, cached example_Float_cached k = Some q -> cached s2 k = Some q.
Proof.
  assert (H : getType 8 false never_new never_realize [] example_Float
                example_initialized
              = Returns (in_pool 0 0) example_Float_cached)
    by (vm_compute; reflexivity).
  split; [exact H|].
  apply (getType_interning 8 false never_new never_realize [] example_garbage
           example_Float [Call_initialize; Call_getType [] example_Int]
           example_initialized example_Float_cached (in_pool 0 0)).
  - exact example_initialized_reachable.
  - exact H.
  - reflexivity.
Defined.

Lemma TypeKey_unique_witness :
  load_value 8 false (TypeKey_ctor 8 false [] example_Float) <>
  load_value 8 false (TypeKey_ctor 8 false example_garbage example_Int) /\
  TypeKey_ctor 8 false [] example_Float <>
  TypeKey_ctor 8 false example_garbage example_Int /\
  exists s2,
    getType 8 false never_new never_realize [] example_Float
            example_initialized
      = Returns (in_pool 0 0) example_Float_cached /\
    getType 8 false never_new never_realize example_garbage example_Int
            example_Float_cached
      = Returns (in_pool 0 1) s2 /\
    in_pool 0 0 <> in_pool 0 1 /\
    TType_at s2 (in_pool 0 0) = Some (mkTType example_Float true) /\
    TType_at s2 (in_pool 0 1) = Some (mkTType example_Int true).
Proof.
  destruct (TypeKey_unique 8 false never_new never_realize [] example_garbage
              example_Float example_Int) as (Hk & Hs & Hcond & Hret).
  - unfold TypeKey_static_assert, sizeof_components. lia.
  - unfold attrs_in_domain, uchar. simpl. lia.
  - unfold attrs_in_domain, uchar. simpl. lia.
  - discriminate.
  - split; [exact Hk|]. split; [exact Hs|].
    destruct (Hret example_initialized example_initialized_reachable)
      as (p1 & s1 & p2 & s2 & H1 & H2);
      [exists 0%nat; reflexivity|reflexivity|reflexivity|reflexivity|].
    destruct (Hcond example_initialized s1 s2 p1 p2
                example_initialized_reachable H1 H2)
      as (Hne & t1 & t2 & Ht1 & Ht2 & Hr1 & Hr2 & _ & _ & _ & Hm1 & Hm2 & _).
    assert (H1' : getType 8 false never_new never_realize [] example_Float
                    example_initialized
                  = Returns (in_pool 0 0) example_Float_cached)
      by (vm_compute; reflexivity).
    rewrite H1' in H1. injection H1 as <- <-.
    assert (H2' : exists s,
              getType 8 false never_new never_realize example_garbage
                      example_Int example_Float_cached
              = Returns (in_pool 0 1) s)
      by (eexists; vm_compute; reflexivity).
    destruct H2' as [s2' H2']. rewrite H2' in H2. injection H2 as <- <-.
    specialize (Hm1 eq_refl). specialize (Hm2 eq_refl).
    destruct t1 as [a1 r1], t2 as [a2 r2]. simpl in Hr1, Hr2, Hm1, Hm2.
    subst. exists s2'. auto.
Defined.

Lemma getType_scoped_redirect_witness :
  (exists sc st,
     (at_new sc, st) ∈ thread_trace 8 false never_new never_realize 8 []
                         example_Float at_Lock example_initialized) /\
  (forall pc st,
     (pc, st) ∈ thread_trace 8 false never_new never_realize 8 []
                  example_Float at_Lock example_initialized ->
     scopedAllocator_alive pc = true ->
     GetGlobalPoolAllocator st = Some 0%nat) /\
  match getType 8 false never_new never_realize [] example_Float
                example_initialized with
  | Returns p s' =>
    GetGlobalPoolAllocator s' = GetGlobalPoolAllocator example_initialized /\
    exists i, p = in_pool 0 i
  | Throws s' =>
    GetGlobalPoolAllocator s' = GetGlobalPoolAllocator example_initialized
  | Undefined => False
  | Blocks => False
  end.
Proof.
  apply (getType_scoped_redirect 8 false never_new never_realize []
           example_Float example_initialized 0%nat (mkTCache ∅ 0)).
  - exact example_initialized_reachable.
  - reflexivity.
  - vm_compute. reflexivity.
  - vm_compute. reflexivity.
Defined.

Lemma getType_concurrent_witness :
  exists sys,
    schedule 8 false never_new never_realize
      [1; 1; 1; 1; 1; 1; 1; 1; 0; 0; 0]%nat
      (mkSystem example_initialized
         (start_threads [[]; example_garbage] example_Float)) = Some sys /\
    all_finished sys = true /\
    shared sys = example_Float_cached /\
    Forall (fun th => thread_pc th = finished (Returned (in_pool 0 0)))
           (threads sys).
Proof.
  destruct (schedule 8 false never_new never_realize
              [1; 1; 1; 1; 1; 1; 1; 1; 0; 0; 0]%nat
              (mkSystem example_initialized
                 (start_threads [[]; example_garbage] example_Float)))
    as [sys|] eqn:Hrun; [|vm_compute in Hrun; discriminate].
  exists sys.
  assert (Hfin : all_finished sys = true).
  { vm_compute in Hrun. injection Hrun as <-. reflexivity. }
  destruct (getType_concurrent 8 false never_new never_realize
              [[]; example_garbage] example_Float example_initialized sys)
    as [Hdone _].
  - exact example_initialized_reachable.
  - exists 0%nat. reflexivity.
  - intros ks. apply lookup_empty.
  - reflexivity.
  - reflexivity.
  - discriminate.
  - now apply schedule_steps with [1; 1; 1; 1; 1; 1; 1; 1; 0; 0; 0]%nat.
  - destruct (Hdone Hfin) as (p & s1 & Hget & Hsh & _ & Hall & _).
    specialize (Hget []). vm_compute in Hget. injection Hget as <- <-.
    auto.
Defined.

Lemma getType_after_destroy_initialize_witness :
  cached example_Float_cached
         (load_value 8 false (TypeKey_ctor 8 false [] example_Float))
    = Some (in_pool 0 0) /\
  exists s1 s2 s3 p',
    destroy example_Float_cached = Returns tt s1 /\
    initialize s1 = Returns tt s2 /\
    cached s2 (load_value 8 false
                 (TypeKey_ctor 8 false example_garbage example_Float)) = None /\
    getType 8 false never_new never_realize example_garbage example_Float s2
      = Returns p' s3 /\
    p' <> in_pool 0 0 /\
    is_Some (TType_at example_Float_cached (in_pool 0 0)) /\
    TType_at s1 (in_pool 0 0) = None /\ TType_at s3 (in_pool 0 0) = None /\
    TType_at s2 p' = None /\
    TType_at s3 p' = Some (mkTType example_Float true) /\
    cached s3 (load_value 8 false
                 (TypeKey_ctor 8 false example_garbage example_Float))
      = Some p'.
Proof.
  assert (H : cached example_Float_cached
                (load_value 8 false (TypeKey_ctor 8 false [] example_Float))
              = Some (in_pool 0 0)) by (vm_compute; reflexivity).
  split; [exact H|].
  apply (getType_after_destroy_initialize 8 false never_new never_realize
           [] example_garbage example_Float example_Float_cached (in_pool 0 0)).
  - exact example_Float_cached_reachable.
  - exact H.
  - reflexivity.
  - reflexivity.
Defined.

Lemma destroy_safe_witness :
  exists s', destroy example_initialized = Returns tt s' /\ sCache s' = None /\
    exists c, caches example_initialized !! 0%nat = Some c /\
      caches s' = delete 0%nat (caches example_initialized) /\
      pools s' = delete (mAllocator c) (pools example_initialized).
Proof.
  exact (destroy_safe 8 false never_new never_realize example_initialized
           example_initialized_reachable).
Defined.

Lemma TypeKey_deterministic_witness :
  TypeKey_ctor 8 false (replicate 8 255) example_Float =
  TypeKey_ctor 8 false example_garbage example_Float /\
  load_value 8 false (TypeKey_ctor 8 false (replicate 8 255) example_Float) =
  load_value 8 false (TypeKey_ctor 8 false example_garbage example_Float) /\
  forall i, (sizeof_components <= i < sizeof_TypeKey 8)%nat ->
    TypeKey_ctor 8 false (replicate 8 255) example_Float !! i = Some 0.
Proof.
  apply (TypeKey_deterministic 8 false (replicate 8 255) example_garbage
           example_Float); reflexivity.
Defined.

Lemma getType_not_null_witness :
  match getType 8 false never_new never_realize example_garbage example_Int
                example_Float_cached with
  | Returns p s' =>
    p <> nullptr /\ forall k q, cached s' k = Some q -> q <> nullptr
  | Throws s' => forall k q, cached s' k = Some q -> q <> nullptr
  | Undefined => False
  | Blocks => False
  end.
Proof.
  apply (getType_not_null 8 false never_new never_realize example_garbage
           example_Int example_Float_cached).
  - exact example_Float_cached_reachable.
  - exists 0%nat. reflexivity.
Defined.

Lemma example_start_reachable :
  reachable 8 false never_new never_realize example_start.
Proof.
  exists example_start, []. split; [exact example_start_process_start|].
  reflexivity.
Qed.

Lemma TypeKey_value_layout_witness :
  load_value 8 false (TypeKey_ctor 8 false example_garbage example_Float) =
  1 + 3 * 256 + 11 * 256 ^ 2 + 1 * 256 ^ 3 + 1 * 256 ^ 4 /\
  load_value 8 true (TypeKey_ctor 8 true example_garbage example_Float) =
  (1 * 256 ^ 4 + 3 * 256 ^ 3 + 11 * 256 ^ 2 + 1 * 256 + 1) * 256 ^ 3.
Proof.
  split.
  - apply (TypeKey_value_layout 8 false example_garbage example_Float).
    unfold TypeKey_static_assert, sizeof_components. lia.
  - apply (TypeKey_value_layout 8 true example_garbage example_Float).
    unfold TypeKey_static_assert, sizeof_components. lia.
Defined.

Lemma getType_truncated_enumerators_witness :
  load_value 8 false (TypeKey_ctor 8 false example_garbage example_Float_wrapped)
    = load_value 8 false (TypeKey_ctor 8 false [] example_Float) /\
  getType 8 false never_new never_realize example_garbage
          example_Float_wrapped example_Float_cached
    = Returns (in_pool 0 0) example_Float_cached.
Proof.
  apply (getType_truncated_enumerators 8 false never_new never_realize
           [] example_garbage example_Float example_Float_wrapped
           example_initialized example_Float_cached (in_pool 0 0)).
  - reflexivity.
  - reflexivity.
  - reflexivity.
  - reflexivity.
  - reflexivity.
  - exact example_initialized_reachable.
  - vm_compute. reflexivity.
Defined.

Lemma call_comes_back_witness :
  (call 8 false never_new never_realize (Call_getType [] example_Float)
        example_start = None <->
   exists ks T, Call_getType [] example_Float = Call_getType ks T /\
     sCache example_start = None /\
     getType 8 false never_new never_realize ks T example_start = Undefined) /\
  (forall s', call 8 false never_new never_realize
                   (Call_getType [] example_Float) example_start = Some s' ->
     sCacheMutex s' = false).
Proof.
  exact (call_comes_back 8 false never_new never_realize
           (Call_getType [] example_Float) example_start
           example_start_reachable).
Defined.

Lemma getType_descriptor_witness :
  exists t, TType_at example_Float_cached (in_pool 0 0) = Some t /\
    realized t = true /\
    key_of 8 false (type_attrs t) = key_of 8 false example_Float /\
    (cached example_initialized (key_of 8 false example_Float) = None ->
     type_attrs t = example_Float) /\
    (TypeKey_static_assert 8 -> attrs_in_domain example_Float ->
     attrs_in_domain (type_attrs t) -> type_attrs t = example_Float).
Proof.
  apply (getType_descriptor 8 false never_new never_realize [] example_Float
           example_initialized example_Float_cached (in_pool 0 0)).
  - exact example_initialized_reachable.
  - vm_compute. reflexivity.
Defined.

Lemma descriptors_stable_witness :
  exists s',
    run 8 false never_new never_realize
        [Call_getType example_garbage example_Int; Call_initialize]
        example_Float_cached = Some s' /\
    TType_at s' (in_pool 0 0) = Some (mkTType example_Float true).
Proof.
  destruct (run 8 false never_new never_realize
              [Call_getType example_garbage example_Int; Call_initialize]
              example_Float_cached) as [s'|] eqn:Hrun;
    [|vm_compute in Hrun; discriminate].
  exists s'. split; [reflexivity|].
  apply (descriptors_stable 8 false never_new never_realize
           [Call_getType example_garbage example_Int; Call_initialize]
           example_Float_cached s').
  - exact example_Float_cached_reachable.
  - reflexivity.
  - exact Hrun.
  - reflexivity.
Defined.

Lemma destroy_releases_witness :
  exists s', destroy example_Float_cached = Returns tt s' /\
    caches s' = ∅ /\ pools s' = pools example_start /\
    forall k p, cached example_Float_cached k = Some p ->
      TType_at s' p = None.
Proof.
  apply (destroy_releases 8 false never_new never_realize
           [Call_initialize; Call_getType [] example_Float] example_start
           example_Float_cached).
  - exact example_start_process_start.
  - vm_compute. reflexivity.
Defined.

Lemma callers_state_untouched_witness :
  GetGlobalPoolAllocator example_Float_cached =
    GetGlobalPoolAllocator example_start /\
  (forall m objs, pools example_start !! m = Some objs ->
     pools example_Float_cached !! m = Some objs) /\
  exists c, caches example_Float_cached = {[0%nat := c]}.
Proof.
  apply (callers_state_untouched 8 false never_new never_realize
           [Call_initialize; Call_getType [] example_Float] example_start
           example_Float_cached).
  - exact example_start_process_start.
  - vm_compute. reflexivity.
Defined.

Lemma initialize_destroy_round_trip_witness :
  bind (initialize example_start) (fun _ => destroy) =
  Returns tt (mkState None ∅ ∅ None false 1).
Proof.
  apply (initialize_destroy_round_trip 8 false never_new never_realize
           example_start).
  - exact example_start_reachable.
  - reflexivity.
Defined.

Lemma getType_serializable_witness :
  exists sys order,
    schedule 8 false never_new never_realize
      [1; 1; 1; 1; 1; 1; 1; 1; 0; 0; 0; 0; 0; 0; 0; 0]%nat
      (mkSystem example_initialized
         [mkThread [] example_Float at_Lock;
          mkThread example_garbage example_Int at_Lock]) = Some sys /\
    order ≡ₚ seq 0 2 /\
    serial 8 false never_new never_realize order (threads sys)
           example_initialized = Some (shared sys).
Proof.
  destruct (schedule 8 false never_new never_realize
              [1; 1; 1; 1; 1; 1; 1; 1; 0; 0; 0; 0; 0; 0; 0; 0]%nat
              (mkSystem example_initialized
                 [mkThread [] example_Float at_Lock;
                  mkThread example_garbage example_Int at_Lock]))
    as [sys|] eqn:Hrun; [|vm_compute in Hrun; discriminate].
  exists sys.
  destruct (getType_serializable 8 false never_new never_realize
              [mkThread [] example_Float at_Lock;
               mkThread example_garbage example_Int at_Lock]
              example_initialized sys) as [_ (order & Hperm & Hser)].
  - reflexivity.
  - repeat constructor.
  - now apply schedule_steps
      with [1; 1; 1; 1; 1; 1; 1; 1; 0; 0; 0; 0; 0; 0; 0; 0]%nat.
  - vm_compute in Hrun. injection Hrun as <-. reflexivity.
  - vm_compute in Hrun. injection Hrun as <-.
    repeat constructor; discriminate.
  - exists order. auto.
Defined.

Lemma getType_threads_progress_witness :
  (exists sys',
     step 8 false never_new never_realize
       (mkSystem example_initialized
          [mkThread [] example_Float at_Lock;
           mkThread example_garbage example_Int at_Lock]) sys') /\
  (forall sys',
     step 8 false never_new never_realize
       (mkSystem example_initialized
          [mkThread [] example_Float at_Lock;
           mkThread example_garbage example_Int at_Lock]) sys' ->
     (weight sys' <
      weight (mkSystem example_initialized
                [mkThread [] example_Float at_Lock;
                 mkThread example_garbage example_Int at_Lock]))%nat).
Proof.
  apply (getType_threads_progress 8 false never_new never_realize
           [mkThread [] example_Float at_Lock;
            mkThread example_garbage example_Int at_Lock]
           example_initialized).
  - reflexivity.
  - repeat constructor.
  - apply rtc_refl.
  - repeat constructor; discriminate.
  - reflexivity.
Defined.

Lemma example_initialized_reachable_throwing :
  reachable 8 false never_new always_realize example_initialized.
Proof.
  exists example_start, [Call_initialize].
  split; [exact example_start_process_start|]. vm_compute. reflexivity.
Qed.

Lemma getType_throw_publishes_nothing_witness :
  exists s',
    getType 8 false never_new always_realize [] example_Float
            example_initialized = Throws s' /\
    sCache s' = sCache example_initialized /\
    caches s' = caches example_initialized /\
    GetGlobalPoolAllocator s' = GetGlobalPoolAllocator example_initialized /\
    cached s' (key_of 8 false example_Float) = None /\
    forall p t, TType_at example_initialized p = Some t ->
      TType_at s' p = Some t.
Proof.
  destruct (getType 8 false never_new always_realize [] example_Float
              example_initialized) as [p s'|s'| |] eqn:Hget;
    try (vm_compute in Hget; discriminate).
  exists s'. split; [reflexivity|].
  apply (getType_throw_publishes_nothing 8 false never_new always_realize
           [] example_Float example_initialized s').
  - exact example_initialized_reachable_throwing.
  - exact Hget.
Defined.
